(** * Authors, magazines and articles: a many-to-many model

    Shallow embedding of [lib/classes/many_to_many.py].

    The Python program keeps three classes, [Author], [Magazine] and
    [Article], and two class-level lists: [Article.all] and [Magazine._all].
    Instances are compared by identity ([is], and the default [==] of
    [object]), so the embedding keeps an explicit object store: an instance is
    an address into a heap, and the two registries are lists of addresses.
    Every method is a computation in a small state-and-exception monad over
    that store. *)

From Stdlib Require Import ZArith Lia.
From stdpp Require Import base list strings.

Open Scope Z_scope.

(** ** Python values and instances *)

(** The identity of an instance: its address in the heap. *)
Abbreviation addr := nat (only parsing).

(** The values a caller can hand to a constructor or a setter. *)
Inductive value :=
| VNone
| VInt (z : Z)
| VStr (s : string)
| VRef (a : addr).

#[global] Instance value_eq_dec : EqDecision value.
Proof. solve_decision. Defined.

Inductive class := CAuthor | CMagazine | CArticle.

#[global] Instance class_eq_dec : EqDecision class.
Proof. solve_decision. Defined.

(** An instance with its private attributes, by class. *)
Inductive object :=
| AuthorObj (_name : value)
| MagazineObj (_name _category : value)
| ArticleObj (_title _author _magazine : value).

Inductive attr := _name | _category | _title | _author | _magazine.

Definition class_of (o : object) : class :=
  match o with
  | AuthorObj _ => CAuthor
  | MagazineObj _ _ => CMagazine
  | ArticleObj _ _ _ => CArticle
  end.

Definition get_field (o : object) (f : attr) : option value :=
  match o, f with
  | AuthorObj n, _name => Some n
  | MagazineObj n _, _name => Some n
  | MagazineObj _ c, _category => Some c
  | ArticleObj t _ _, _title => Some t
  | ArticleObj _ a _, _author => Some a
  | ArticleObj _ _ m, _magazine => Some m
  | _, _ => None
  end.

Definition set_field (o : object) (f : attr) (v : value) : option object :=
  match o, f with
  | AuthorObj _, _name => Some (AuthorObj v)
  | MagazineObj _ c, _name => Some (MagazineObj v c)
  | MagazineObj n _, _category => Some (MagazineObj n v)
  | ArticleObj _ a m, _title => Some (ArticleObj v a m)
  | ArticleObj t _ m, _author => Some (ArticleObj t v m)
  | ArticleObj t a _, _magazine => Some (ArticleObj t a v)
  | _, _ => None
  end.

(** ** The store: heap and the two class-level registries *)

Record state := mkState {
  heap : list object;
  Magazine__all : list addr;   (* Magazine._all *)
  Article_all : list addr      (* Article.all *)
}.

(** Nothing constructed yet, both registries [[]]. *)
Definition init : state := mkState [] [] [].

Inductive exn :=
| Exception (msg : string)
| AttributeError
| TypeError.

Inductive result (A : Type) :=
| Ok (a : A)
| Raise (e : exn).
Arguments Ok {A} a.
Arguments Raise {A} e.

(** ** State and exception monad *)

Definition M (A : Type) : Type := state -> result A * state.

Definition ret {A} (a : A) : M A := fun s => (Ok a, s).

Definition raise {A} (e : exn) : M A := fun s => (Raise e, s).

Definition bind {A B} (m : M A) (k : A -> M B) : M B :=
  fun s =>
    match m s with
    | (Ok a, s') => k a s'
    | (Raise e, s') => (Raise e, s')
    end.

Definition gets {A} (f : state -> A) : M A := fun s => (Ok (f s), s).

Definition modify (f : state -> state) : M unit := fun s => (Ok tt, f s).

Declare Scope py_scope.
Delimit Scope py_scope with py.
Notation "x <- m ;; k" := (bind m (fun x => k))
  (at level 100, m at next level, right associativity) : py_scope.
Notation "m ;; k" := (bind m (fun _ => k))
  (at level 100, right associativity) : py_scope.
Open Scope py_scope.

(** [[x for x in l if p x]] *)
Fixpoint filterM {A} (p : A -> M bool) (l : list A) : M (list A) :=
  match l with
  | [] => ret []
  | x :: l' =>
      b <- p x ;;
      r <- filterM p l' ;;
      ret (if b then x :: r else r)
  end.

(** [[f x for x in l]] *)
Fixpoint mapM {A B} (f : A -> M B) (l : list A) : M (list B) :=
  match l with
  | [] => ret []
  | x :: l' =>
      y <- f x ;;
      r <- mapM f l' ;;
      ret (y :: r)
  end.

(** [for x in l: acc = body acc x] *)
Fixpoint foldM {A B} (body : B -> A -> M B) (acc : B) (l : list A) : M B :=
  match l with
  | [] => ret acc
  | x :: l' =>
      acc' <- body acc x ;;
      foldM body acc' l'
  end.

(** ** Primitive operations on values and on the heap *)

(** [isinstance(v, str)] *)
Definition isinstance_str (v : value) : bool :=
  match v with VStr _ => true | _ => false end.

(** [len(v)]; only strings have a length here. *)
Definition len (v : value) : M Z :=
  match v with
  | VStr s => ret (Z.of_nat (String.length s))
  | _ => raise TypeError
  end.

Definition is_a (c : class) (h : list object) (v : value) : bool :=
  match v with
  | VRef a =>
      match h !! a with
      | Some o => bool_decide (class_of o = c)
      | None => false
      end
  | _ => false
  end.

(** [isinstance(v, C)] for one of the three classes. *)
Definition isinstance (v : value) (c : class) : M bool :=
  gets (fun s => is_a c (heap s) v).

(** [self.f], read. *)
Definition getattr (self : value) (f : attr) : M value :=
  match self with
  | VRef a =>
      h <- gets heap ;;
      match h !! a ≫= (fun o => get_field o f) with
      | Some v => ret v
      | None => raise AttributeError
      end
  | _ => raise AttributeError
  end.

(** [self.f = v] on an instance that already carries [f]. *)
Definition setattr (self : addr) (f : attr) (v : value) : M unit :=
  h <- gets heap ;;
  match h !! self ≫= (fun o => set_field o f v) with
  | Some o' =>
      modify (fun s => mkState (<[self := o']> (heap s)) (Magazine__all s) (Article_all s))
  | None => raise AttributeError
  end.

(** A fresh instance; its address is the next free slot of the heap. *)
Definition alloc (o : object) : M addr :=
  a <- gets (fun s => length (heap s)) ;;
  modify (fun s => mkState (heap s ++ [o]) (Magazine__all s) (Article_all s)) ;;
  ret a.

(** [x is self], for a receiver [self]. *)
Definition is_ (x : value) (self : addr) : bool :=
  bool_decide (x = VRef self).

(** [x in l]: the default [==] of instances is identity, strings and
    integers compare by value. *)
Definition py_in (x : value) (l : list value) : bool :=
  bool_decide (x ∈ l).

(** Attribute access on an expression that need not be an instance. *)
Definition on_instance {A} (v : value) (k : addr -> M A) : M A :=
  match v with
  | VRef a => k a
  | _ => raise AttributeError
  end.

(** A [dict] with instance or string keys and integer values.  Python keeps
    the keys in insertion order, and assignment to a present key keeps its
    place. *)
Definition dict := list (value * Z).

Fixpoint dict_get (d : dict) (k : value) (default : Z) : Z :=
  match d with
  | [] => default
  | (k', v) :: d' => if bool_decide (k' = k) then v else dict_get d' k default
  end.

Fixpoint dict_set (d : dict) (k : value) (v : Z) : dict :=
  match d with
  | [] => [(k, v)]
  | (k', v') :: d' =>
      if bool_decide (k' = k) then (k', v) :: d' else (k', v') :: dict_set d' k v
  end.

Definition dict_items (d : dict) : list (value * Z) := d.

(** ** class Article *)

Module Article.

(** [Article(author, magazine, title)].  Python allocates the instance
    before [__init__] runs; when [__init__] raises, that instance is
    dropped unseen, so the store receives it at the attribute
    assignments. *)
Definition __init__ (author magazine title : value) : M addr :=
  b <- isinstance author CAuthor ;;
  if negb b then raise (Exception "author must be an Author instance") else
  b <- isinstance magazine CMagazine ;;
  if negb b then raise (Exception "magazine must be a Magazine instance") else
  if negb (isinstance_str title) then raise (Exception "title must be a string") else
  n <- len title ;;
  if negb ((5 <=? n) && (n <=? 50))
  then raise (Exception "title must be between 5 and 50 characters") else
  self <- alloc (ArticleObj title author magazine) ;;
  modify (fun s => mkState (heap s) (Magazine__all s) (Article_all s ++ [self])) ;;
  ret self.

Definition title (self : addr) : M value := getattr (VRef self) _title.

Definition title_setter (self : addr) (value : value) : M unit := ret tt.

Definition author (self : addr) : M value := getattr (VRef self) _author.

Definition author_setter (self : addr) (value : value) : M unit :=
  b <- isinstance value CAuthor ;;
  if b then setattr self _author value else ret tt.

Definition magazine (self : addr) : M value := getattr (VRef self) _magazine.

Definition magazine_setter (self : addr) (value : value) : M unit :=
  b <- isinstance value CMagazine ;;
  if b then setattr self _magazine value else ret tt.

End Article.

(** ** class Magazine *)

Module Magazine.

Definition __init__ (name category : value) : M addr :=
  if negb (isinstance_str name) then raise (Exception "name must be a string") else
  n <- len name ;;
  if negb ((2 <=? n) && (n <=? 16))
  then raise (Exception "name must be between 2 and 16 characters") else
  if negb (isinstance_str category) then raise (Exception "category must be a string") else
  c <- len category ;;
  if c =? 0 then raise (Exception "category must be longer than 0 characters") else
  self <- alloc (MagazineObj name category) ;;
  modify (fun s => mkState (heap s) (Magazine__all s ++ [self]) (Article_all s)) ;;
  ret self.

Definition name (self : addr) : M value := getattr (VRef self) _name.

Definition name_setter (self : addr) (value : value) : M unit :=
  if isinstance_str value then
    n <- len value ;;
    if (2 <=? n) && (n <=? 16) then setattr self _name value else ret tt
  else ret tt.

Definition category (self : addr) : M value := getattr (VRef self) _category.

Definition category_setter (self : addr) (value : value) : M unit :=
  if isinstance_str value then
    n <- len value ;;
    if n >? 0 then setattr self _category value else ret tt
  else ret tt.

Definition articles (self : addr) : M (list addr) :=
  all <- gets Article_all ;;
  filterM (fun a => m <- Article.magazine a ;; ret (is_ m self)) all.

Definition contributors (self : addr) : M (list value) :=
  arts <- articles self ;;
  foldM (fun authors a =>
           au <- Article.author a ;;
           ret (if py_in au authors then authors else authors ++ [au]))
        [] arts.

Definition article_titles (self : addr) : M (option (list value)) :=
  arts <- articles self ;;
  match arts with
  | [] => ret None
  | _ => ts <- mapM Article.title arts ;; ret (Some ts)
  end.

Definition contributing_authors (self : addr) : M (option (list value)) :=
  arts <- articles self ;;
  match arts with
  | [] => ret None
  | _ =>
      counts <- foldM (fun counts a =>
                         au <- Article.author a ;;
                         ret (dict_set counts au (dict_get counts au 0 + 1)))
                      [] arts ;;
      let result :=
        (filter (fun '(_, cnt) => cnt > 2) (dict_items counts)).*1 in
      ret (match result with [] => None | _ => Some result end)
  end.

Definition top_publisher : M (option addr) :=
  all <- gets Article_all ;;
  match all with
  | [] => ret None
  | _ =>
      mags <- gets Magazine__all ;;
      r <- foldM (fun '(best, best_count) mag =>
                    all <- gets Article_all ;;
                    arts <- filterM (fun a => m <- Article.magazine a ;;
                                              ret (is_ m mag)) all ;;
                    let count := Z.of_nat (length arts) in
                    if count >? best_count
                    then ret (Some mag, count)
                    else ret (best, best_count))
                 (None, 0) mags ;;
      ret r.1
  end.

End Magazine.

(** ** class Author *)

Module Author.

Definition __init__ (name : value) : M addr :=
  if negb (isinstance_str name) then raise (Exception "name must be a string") else
  n <- len name ;;
  if n =? 0 then raise (Exception "name must be longer than 0 characters") else
  alloc (AuthorObj name).

Definition name (self : addr) : M value := getattr (VRef self) _name.

Definition name_setter (self : addr) (value : value) : M unit := ret tt.

Definition articles (self : addr) : M (list addr) :=
  all <- gets Article_all ;;
  filterM (fun a => au <- Article.author a ;; ret (is_ au self)) all.

Definition magazines (self : addr) : M (list value) :=
  arts <- articles self ;;
  foldM (fun mags a =>
           m <- Article.magazine a ;;
           ret (if py_in m mags then mags else mags ++ [m]))
        [] arts.

Definition add_article (self : addr) (magazine title : value) : M addr :=
  Article.__init__ (VRef self) magazine title.

Definition topic_areas (self : addr) : M (option (list value)) :=
  mags <- magazines self ;;
  match mags with
  | [] => ret None
  | _ =>
      cats <- foldM (fun cats m =>
                       c <- on_instance m Magazine.category ;;
                       ret (if py_in c cats then cats else cats ++ [c]))
                    [] mags ;;
      ret (Some cats)
  end.

End Author.


(** ** The calls a client program can make *)

(** A method runs on a receiver of its class: [x.m(...)] reaches [C.m] only
    when [x] is an instance of [C]. *)
Definition method {A} (c : class) (self : addr) (body : addr -> M A) : M A :=
  b <- isinstance (VRef self) c ;;
  if b then body self else raise AttributeError.

Definition void {A} (m : M A) : M unit := _ <- m ;; ret tt.

Inductive call :=
| New_Author (name : value)
| Author_name (self : addr)
| Set_Author_name (self : addr) (v : value)
| Author_articles (self : addr)
| Author_magazines (self : addr)
| Author_add_article (self : addr) (magazine title : value)
| Author_topic_areas (self : addr)
| New_Magazine (name category : value)
| Magazine_name (self : addr)
| Set_Magazine_name (self : addr) (v : value)
| Magazine_category (self : addr)
| Set_Magazine_category (self : addr) (v : value)
| Magazine_articles (self : addr)
| Magazine_contributors (self : addr)
| Magazine_article_titles (self : addr)
| Magazine_contributing_authors (self : addr)
| Magazine_top_publisher
| New_Article (author magazine title : value)
| Article_title (self : addr)
| Set_Article_title (self : addr) (v : value)
| Article_author (self : addr)
| Set_Article_author (self : addr) (v : value)
| Article_magazine (self : addr)
| Set_Article_magazine (self : addr) (v : value).

Definition run (c : call) : M unit :=
  match c with
  | New_Author name => void (Author.__init__ name)
  | Author_name self => void (method CAuthor self Author.name)
  | Set_Author_name self v => method CAuthor self (fun self => Author.name_setter self v)
  | Author_articles self => void (method CAuthor self Author.articles)
  | Author_magazines self => void (method CAuthor self Author.magazines)
  | Author_add_article self magazine title =>
      void (method CAuthor self (fun self => Author.add_article self magazine title))
  | Author_topic_areas self => void (method CAuthor self Author.topic_areas)
  | New_Magazine name category => void (Magazine.__init__ name category)
  | Magazine_name self => void (method CMagazine self Magazine.name)
  | Set_Magazine_name self v =>
      method CMagazine self (fun self => Magazine.name_setter self v)
  | Magazine_category self => void (method CMagazine self Magazine.category)
  | Set_Magazine_category self v =>
      method CMagazine self (fun self => Magazine.category_setter self v)
  | Magazine_articles self => void (method CMagazine self Magazine.articles)
  | Magazine_contributors self => void (method CMagazine self Magazine.contributors)
  | Magazine_article_titles self => void (method CMagazine self Magazine.article_titles)
  | Magazine_contributing_authors self =>
      void (method CMagazine self Magazine.contributing_authors)
  | Magazine_top_publisher => void Magazine.top_publisher
  | New_Article author magazine title => void (Article.__init__ author magazine title)
  | Article_title self => void (method CArticle self Article.title)
  | Set_Article_title self v =>
      method CArticle self (fun self => Article.title_setter self v)
  | Article_author self => void (method CArticle self Article.author)
  | Set_Article_author self v =>
      method CArticle self (fun self => Article.author_setter self v)
  | Article_magazine self => void (method CArticle self Article.magazine)
  | Set_Article_magazine self v =>
      method CArticle self (fun self => Article.magazine_setter self v)
  end.

(** A client program is a sequence of calls; a call that raises leaves the
    store as it was when the exception left the method. *)
Definition exec (cs : list call) (s : state) : state :=
  foldl (fun s c => (run c s).2) s cs.

(** ** Well-formed stores *)

(** Addresses of the instances of class [c], in allocation order. *)
Fixpoint instances_from (c : class) (base : addr) (h : list object) : list addr :=
  match h with
  | [] => []
  | o :: h' =>
      (if bool_decide (class_of o = c) then [base] else [])
        ++ instances_from c (S base) h'
  end.

Definition instances (c : class) (h : list object) : list addr :=
  instances_from c 0%nat h.

Definition valid_object (h : list object) (o : object) : Prop :=
  match o with
  | ArticleObj t a m =>
      isinstance_str t = true /\ is_a CAuthor h a = true /\ is_a CMagazine h m = true
  | _ => True
  end.

Record wf (s : state) : Prop := mk_wf {
  wf_articles : Article_all s = instances CArticle (heap s);
  wf_magazines : Magazine__all s = instances CMagazine (heap s);
  wf_objects : Forall (valid_object (heap s)) (heap s)
}.

(** ** Reference readings of the store, used to state the queries *)

Definition field (s : state) (a : addr) (f : attr) : value :=
  default VNone (heap s !! a ≫= (fun o => get_field o f)).

(** How many articles of the registry are published by [mag]. *)
Definition article_count (s : state) (mag : addr) : Z :=
  Z.of_nat (length (filter (fun a => field s a _magazine = VRef mag) (Article_all s))).

(** In how many of [mag]'s articles of the registry [v] is the author. *)
Definition appearances (s : state) (mag : addr) (v : value) : Z :=
  Z.of_nat (length (filter (fun a => field s a _magazine = VRef mag /\
                                     field s a _author = v) (Article_all s))).

(** ** Definitions used to state the properties *)

(** A computation that never writes the store. *)
Definition readonly {A} (m : M A) : Prop := forall s, (m s).2 = s.

(** The conditions the three constructors check, in the words of the
    program's error messages. *)
Definition str_between (lo hi : Z) (v : value) : Prop :=
  exists t, v = VStr t /\ lo <= Z.of_nat (String.length t) <= hi.

Definition nonempty_str (v : value) : Prop :=
  exists t, v = VStr t /\ Z.of_nat (String.length t) <> 0.

#[global] Instance str_between_dec lo hi v : Decision (str_between lo hi v).
Proof.
  destruct v as [| |t|];
    try (right; intros (? & ? & ?); discriminate).
  destruct (decide (lo <= Z.of_nat (String.length t) <= hi)) as [H|H].
  - left. by exists t.
  - right. intros (? & [= <-] & ?). done.
Defined.

#[global] Instance nonempty_str_dec v : Decision (nonempty_str v).
Proof.
  destruct v as [| |t|];
    try (right; intros (? & ? & ?); discriminate).
  destruct (decide (Z.of_nat (String.length t) <> 0)) as [H|H].
  - left. by exists t.
  - right. intros (? & [= <-] & ?). done.
Defined.

(** The store after a successful [Author(name)], [Magazine(name, category)]
    and [Article(author, magazine, title)]. *)
Definition append_Author (name : value) (s : state) : state :=
  mkState (heap s ++ [AuthorObj name]) (Magazine__all s) (Article_all s).

Definition append_Magazine (name category : value) (s : state) : state :=
  mkState (heap s ++ [MagazineObj name category])
          (Magazine__all s ++ [length (heap s)]) (Article_all s).

Definition append_Article (author magazine title : value) (s : state) : state :=
  mkState (heap s ++ [ArticleObj title author magazine])
          (Magazine__all s) (Article_all s ++ [length (heap s)]).

(** The store after an attribute assignment that turns [self] into [o]. *)
Definition update (s : state) (self : addr) (o : object) : state :=
  mkState (<[self := o]> (heap s)) (Magazine__all s) (Article_all s).

(** [frozen o o']: [o'] is the same instance as [o] with, at most, the
    attributes that have a working setter changed. *)
Definition frozen (o o' : object) : Prop :=
  match o, o' with
  | AuthorObj n, AuthorObj n' => n = n'
  | MagazineObj _ _, MagazineObj _ _ => True
  | ArticleObj t _ _, ArticleObj t' _ _ => t = t'
  | _, _ => False
  end.

(** [for a in l: counts[key a] = counts.get(key a, 0) + 1] *)
Definition tally {A} (key : A -> value) (d : dict) (l : list A) : dict :=
  foldl (fun counts a => dict_set counts (key a) (dict_get counts (key a) 0 + 1)) d l.

(** One turn of the loop of [top_publisher], given the count of each
    magazine. *)
Definition leader_step (cnt : addr -> Z) (acc : option addr * Z) (mag : addr)
    : option addr * Z :=
  let '(best, best_count) := acc in
  if cnt mag >? best_count then (Some mag, cnt mag) else (best, best_count).

(** Loop invariant: over the magazines seen so far, [best] is the first
    one with the largest count, unless none has an article yet. *)
Definition leads (cnt : addr -> Z) (seen : list addr) (acc : option addr * Z) : Prop :=
  match acc.1 with
  | None => acc.2 = 0 /\ forall m, m ∈ seen -> cnt m = 0
  | Some b =>
      0 < acc.2 /\ acc.2 = cnt b /\
      exists i, seen !! i = Some b /\
        forall j m, seen !! j = Some m ->
          cnt m <= cnt b /\ ((j < i)%nat -> cnt m < cnt b)
  end.

(** A client's store: whatever some sequence of calls builds from the
    empty registries. *)
Definition reachable (s : state) : Prop := exists cs, s = exec cs init.

(** Two authors, two magazines, six articles, and one rejected rename. *)
Definition demo_calls : list call :=
  [ New_Author (VStr "Ada");
    New_Author (VStr "Bob");
    New_Magazine (VStr "Tech") (VStr "Science");
    New_Magazine (VStr "Vogue") (VStr "Fashion");
    Author_add_article 0%nat (VRef 2%nat) (VStr "A Great Title");
    New_Article (VRef 0%nat) (VRef 2%nat) (VStr "Second Title");
    New_Article (VRef 0%nat) (VRef 2%nat) (VStr "Third Title");
    New_Article (VRef 1%nat) (VRef 2%nat) (VStr "First by Bob");
    New_Article (VRef 1%nat) (VRef 2%nat) (VStr "Second by Bob");
    New_Article (VRef 1%nat) (VRef 3%nat) (VStr "In Vogue now");
    Set_Magazine_name 2%nat (VStr "X") ].

Definition demo : state := exec demo_calls init.

(** ** Definitions used for the further properties *)

(** The articles of the registry written by [self], and those published
    in [self]. *)
Definition articles_by (s : state) (self : addr) : list addr :=
  filter (fun a => field s a _author = VRef self) (Article_all s).

Definition articles_in (s : state) (self : addr) : list addr :=
  filter (fun a => field s a _magazine = VRef self) (Article_all s).

(** [if x not in acc: acc.append(x)], the body of the three
    deduplicating loops. *)
Definition dedup_step (acc : list value) (x : value) : list value :=
  if py_in x acc then acc else acc ++ [x].

(** Each value once, at the place of its first occurrence. *)
Fixpoint first_seen (l : list value) : list value :=
  match l with
  | [] => []
  | x :: l' => x :: filter (fun y => y <> x) (first_seen l')
  end.

(** The category of the magazine a value refers to. *)
Definition category_of (s : state) (m : value) : value :=
  match m with
  | VRef x => field s x _category
  | _ => VNone
  end.

(** The attribute values the constructors and the setters let through. *)
Definition attrs_valid (o : object) : Prop :=
  match o with
  | AuthorObj n => nonempty_str n
  | MagazineObj n c => str_between 2 16 n /\ nonempty_str c
  | ArticleObj t _ _ => str_between 5 50 t
  end.

(** What one call can do to the store. *)
Inductive step (s : state) : state -> Prop :=
| step_none : step s s
| step_Author n :
    nonempty_str n -> step s (append_Author n s)
| step_Magazine n c :
    str_between 2 16 n -> nonempty_str c -> step s (append_Magazine n c s)
| step_Article au m t :
    is_a CAuthor (heap s) au = true -> is_a CMagazine (heap s) m = true ->
    str_between 5 50 t -> step s (append_Article au m t s)
| step_Magazine_name self n c v :
    heap s !! self = Some (MagazineObj n c) -> str_between 2 16 v ->
    step s (update s self (MagazineObj v c))
| step_Magazine_category self n c v :
    heap s !! self = Some (MagazineObj n c) -> nonempty_str v ->
    step s (update s self (MagazineObj n v))
| step_Article_author self t a m v :
    heap s !! self = Some (ArticleObj t a m) -> is_a CAuthor (heap s) v = true ->
    step s (update s self (ArticleObj t v m))
| step_Article_magazine self t a m v :
    heap s !! self = Some (ArticleObj t a m) -> is_a CMagazine (heap s) v = true ->
    step s (update s self (ArticleObj t a v)).

(** [same_links s s']: the article registry is the same and the registered
    articles are the same instances with the same attributes. *)
Definition same_links (s s' : state) : Prop :=
  Article_all s' = Article_all s /\
  forall a, a ∈ Article_all s -> heap s' !! a = heap s !! a.

(** * Proofs *)

(** ** The monad *)

Ltac monad_unfold :=
  unfold void, method, isinstance, setattr, alloc, getattr, on_instance, len,
         bind, ret, raise, gets, modify in *.

Create HintDb readonly discriminated.

Lemma readonly_ret {A} (a : A) : readonly (ret a).
Proof. by intros s. Qed.

Lemma readonly_raise {A} (e : exn) : readonly (@raise A e).
Proof. by intros s. Qed.

Lemma readonly_gets {A} (f : state -> A) : readonly (gets f).
Proof. by intros s. Qed.

Lemma readonly_bind {A B} (m : M A) (k : A -> M B) :
  readonly m -> (forall a, readonly (k a)) -> readonly (bind m k).
Proof.
  intros Hm Hk s. unfold bind. specialize (Hm s).
  destruct (m s) as [[a|e] s']; simpl in *; subst; [apply Hk | done].
Qed.

Lemma readonly_filterM {A} (p : A -> M bool) (l : list A) :
  (forall a, readonly (p a)) -> readonly (filterM p l).
Proof.
  intros Hp. induction l as [|x l IH]; simpl.
  - apply readonly_ret.
  - apply readonly_bind; [apply Hp | intros b].
    apply readonly_bind; [apply IH | intros r; apply readonly_ret].
Qed.

Lemma readonly_mapM {A B} (f : A -> M B) (l : list A) :
  (forall a, readonly (f a)) -> readonly (mapM f l).
Proof.
  intros Hf. induction l as [|x l IH]; simpl.
  - apply readonly_ret.
  - apply readonly_bind; [apply Hf | intros b].
    apply readonly_bind; [apply IH | intros r; apply readonly_ret].
Qed.

Lemma readonly_foldM {A B} (body : B -> A -> M B) (l : list A) (acc : B) :
  (forall acc a, readonly (body acc a)) -> readonly (foldM body acc l).
Proof.
  intros Hb. revert acc. induction l as [|x l IH]; intros acc; simpl.
  - apply readonly_ret.
  - apply readonly_bind; [apply Hb | intros acc'; apply IH].
Qed.

Lemma readonly_len (v : value) : readonly (len v).
Proof. destruct v; simpl; auto using readonly_ret, readonly_raise. Qed.

Lemma readonly_isinstance (v : value) (c : class) : readonly (isinstance v c).
Proof. apply readonly_gets. Qed.

Lemma readonly_getattr (self : value) (f : attr) : readonly (getattr self f).
Proof.
  destruct self; simpl; try apply readonly_raise.
  apply readonly_bind; [apply readonly_gets | intros h].
  destruct (_ ≫= _); [apply readonly_ret | apply readonly_raise].
Qed.

Lemma readonly_on_instance {A} (v : value) (k : addr -> M A) :
  (forall a, readonly (k a)) -> readonly (on_instance v k).
Proof. intros Hk. destruct v; simpl; auto using readonly_raise. Qed.

Lemma readonly_void {A} (m : M A) : readonly m -> readonly (void m).
Proof. intros Hm. apply readonly_bind; [done | intros; apply readonly_ret]. Qed.

Lemma readonly_method {A} (c : class) (self : addr) (body : addr -> M A) :
  (forall a, readonly (body a)) -> readonly (method c self body).
Proof.
  intros Hb. apply readonly_bind; [apply readonly_isinstance | intros []].
  - apply Hb.
  - apply readonly_raise.
Qed.

Lemma readonly_if {A} (b : bool) (m1 m2 : M A) :
  readonly m1 -> readonly m2 -> readonly (if b then m1 else m2).
Proof. by destruct b. Qed.

#[global] Hint Resolve readonly_ret readonly_raise readonly_gets readonly_len
  readonly_isinstance readonly_getattr readonly_void readonly_if : readonly.
#[global] Hint Extern 2 (readonly (bind _ _)) =>
  apply readonly_bind; [| intros ?] : readonly.
#[global] Hint Extern 2 (readonly (filterM _ _)) =>
  apply readonly_filterM; intros ? : readonly.
#[global] Hint Extern 2 (readonly (mapM _ _)) =>
  apply readonly_mapM; intros ? : readonly.
#[global] Hint Extern 2 (readonly (foldM _ _ _)) =>
  apply readonly_foldM; intros ? ? : readonly.
#[global] Hint Extern 2 (readonly (on_instance _ _)) =>
  apply readonly_on_instance; intros ? : readonly.
#[global] Hint Extern 2 (readonly (method _ _ _)) =>
  apply readonly_method; intros ? : readonly.
#[global] Hint Extern 3 (readonly (match ?x with _ => _ end)) =>
  destruct x : readonly.

Lemma readonly_Article_title self : readonly (Article.title self).
Proof. unfold Article.title. auto with readonly. Qed.

Lemma readonly_Article_author self : readonly (Article.author self).
Proof. unfold Article.author. auto with readonly. Qed.

Lemma readonly_Article_magazine self : readonly (Article.magazine self).
Proof. unfold Article.magazine. auto with readonly. Qed.

Lemma readonly_Magazine_name self : readonly (Magazine.name self).
Proof. unfold Magazine.name. auto with readonly. Qed.

Lemma readonly_Magazine_category self : readonly (Magazine.category self).
Proof. unfold Magazine.category. auto with readonly. Qed.

Lemma readonly_Author_name self : readonly (Author.name self).
Proof. unfold Author.name. auto with readonly. Qed.

#[global] Hint Resolve readonly_Article_title readonly_Article_author
  readonly_Article_magazine readonly_Magazine_name readonly_Magazine_category
  readonly_Author_name : readonly.

Lemma readonly_Author_articles self : readonly (Author.articles self).
Proof. unfold Author.articles. auto 10 with readonly. Qed.

Lemma readonly_Magazine_articles self : readonly (Magazine.articles self).
Proof. unfold Magazine.articles. auto 10 with readonly. Qed.

#[global] Hint Resolve readonly_Author_articles readonly_Magazine_articles : readonly.

Lemma readonly_Author_magazines self : readonly (Author.magazines self).
Proof. unfold Author.magazines. auto 10 with readonly. Qed.

#[global] Hint Resolve readonly_Author_magazines : readonly.

Lemma readonly_Author_topic_areas self : readonly (Author.topic_areas self).
Proof. unfold Author.topic_areas. auto 12 with readonly. Qed.

Lemma readonly_Magazine_contributors self : readonly (Magazine.contributors self).
Proof. unfold Magazine.contributors. auto 10 with readonly. Qed.

Lemma readonly_Magazine_article_titles self : readonly (Magazine.article_titles self).
Proof. unfold Magazine.article_titles. auto 12 with readonly. Qed.

Lemma readonly_Magazine_contributing_authors self :
  readonly (Magazine.contributing_authors self).
Proof. unfold Magazine.contributing_authors. auto 12 with readonly. Qed.

Lemma readonly_Magazine_top_publisher : readonly Magazine.top_publisher.
Proof.
  unfold Magazine.top_publisher.
  apply readonly_bind; [auto with readonly | intros all].
  destruct all; [auto with readonly |].
  apply readonly_bind; [auto with readonly | intros mags].
  apply readonly_bind; [| auto with readonly].
  apply readonly_foldM. intros [best best_count] mag.
  auto 12 with readonly.
Qed.

#[global] Hint Resolve readonly_Author_topic_areas readonly_Magazine_contributors
  readonly_Magazine_article_titles readonly_Magazine_contributing_authors
  readonly_Magazine_top_publisher : readonly.

(** ** Instances and classes in the heap *)

Lemma instances_from_app c b h h' :
  instances_from c b (h ++ h') =
  instances_from c b h ++ instances_from c (b + length h)%nat h'.
Proof.
  revert b. induction h as [|o h IH]; intros b; simpl.
  - by rewrite Nat.add_0_r.
  - rewrite IH, <- app_assoc. do 3 f_equal. lia.
Qed.

Lemma instances_from_insert c b h i o o' :
  h !! i = Some o -> class_of o' = class_of o ->
  instances_from c b (<[i := o']> h) = instances_from c b h.
Proof.
  revert b i. induction h as [|x h IH]; intros b [|i] Hi Hc; simpl in *; try done.
  - injection Hi as ->. by rewrite Hc.
  - f_equal. by apply IH.
Qed.

Lemma elem_of_instances_from c b h a :
  a ∈ instances_from c b h <->
  (b <= a)%nat /\ class_of <$> h !! (a - b)%nat = Some c.
Proof.
  revert b. induction h as [|o h IH]; intros b; simpl.
  - rewrite elem_of_nil. split; [done | by intros [_ ?]].
  - rewrite elem_of_app, IH. case_bool_decide as Hc.
    + rewrite list_elem_of_singleton. split.
      * intros [-> | [Hle Hl]].
        -- rewrite Nat.sub_diag. simpl. split; [lia | by rewrite Hc].
        -- split; [lia |]. by replace (a - b)%nat with (S (a - S b)) by lia.
      * intros [Hle Hl]. destruct (decide (a = b)) as [-> | Hne]; [by left | right].
        split; [lia |]. by replace (a - b)%nat with (S (a - S b)) in Hl by lia.
    + rewrite elem_of_nil. split.
      * intros [[] | [Hle Hl]].
        split; [lia |]. by replace (a - b)%nat with (S (a - S b)) by lia.
      * intros [Hle Hl]. right. destruct (decide (a = b)) as [-> | Hne].
        -- rewrite Nat.sub_diag in Hl. simpl in Hl. congruence.
        -- split; [lia |]. by replace (a - b)%nat with (S (a - S b)) in Hl by lia.
Qed.

Lemma elem_of_instances c h a :
  a ∈ instances c h <-> class_of <$> h !! a = Some c.
Proof.
  unfold instances. rewrite elem_of_instances_from, Nat.sub_0_r.
  split; [by intros [_ ?] | split; [lia | done]].
Qed.

Lemma NoDup_instances_from c b h : NoDup (instances_from c b h).
Proof.
  revert b. induction h as [|o h IH]; intros b; simpl; [constructor |].
  case_bool_decide; simpl; [| apply IH].
  constructor; [| apply IH].
  rewrite elem_of_instances_from. lia.
Qed.

Lemma is_a_true c h v :
  is_a c h v = true <-> exists a, v = VRef a /\ class_of <$> h !! a = Some c.
Proof.
  unfold is_a. destruct v as [| | |a];
    try (split; [done | by intros (? & ? & ?)]).
  split.
  - intros H. exists a. split; [done |].
    destruct (h !! a) as [o|]; simpl; [| done].
    apply bool_decide_eq_true in H. by rewrite H.
  - intros (? & [= <-] & H).
    destruct (h !! a) as [o|]; simpl in *; [| done].
    apply bool_decide_eq_true. congruence.
Qed.

Lemma is_a_app c h h' v : is_a c h v = true -> is_a c (h ++ h') v = true.
Proof.
  rewrite !is_a_true. intros (a & -> & Ha). exists a. split; [done |].
  destruct (h !! a) as [o|] eqn:E; [| done].
  by rewrite (lookup_app_l_Some _ _ _ _ E).
Qed.

Lemma lookup_insert_class (h : list object) i j o o' :
  h !! i = Some o -> class_of o' = class_of o ->
  class_of <$> <[i := o']> h !! j = class_of <$> h !! j.
Proof.
  intros Hi Hc. destruct (decide (i = j)) as [-> | Hne].
  - rewrite list_lookup_insert_eq by (by eapply lookup_lt_Some).
    rewrite Hi. simpl. by rewrite Hc.
  - by rewrite list_lookup_insert_ne.
Qed.

Lemma is_a_insert c h i o o' v :
  h !! i = Some o -> class_of o' = class_of o ->
  is_a c (<[i := o']> h) v = is_a c h v.
Proof.
  intros Hi Hc. destruct v as [| | |a]; try done. simpl.
  pose proof (lookup_insert_class h i a o o' Hi Hc) as E. revert E.
  destruct (<[i:=o']> h !! a) as [x|], (h !! a) as [y|]; simpl; try done.
  by intros [= ->].
Qed.

Lemma set_field_class o f v o' : set_field o f v = Some o' -> class_of o' = class_of o.
Proof. destruct o, f; simpl; intros; simplify_eq; done. Qed.

Lemma valid_object_app h h' o : valid_object h o -> valid_object (h ++ h') o.
Proof.
  destruct o; simpl; [done | done |].
  intros (? & ? & ?). auto using is_a_app.
Qed.

Lemma valid_object_insert h i o0 o0' o :
  h !! i = Some o0 -> class_of o0' = class_of o0 ->
  valid_object h o -> valid_object (<[i := o0']> h) o.
Proof.
  intros Hi Hc. destruct o; simpl; [done | done |].
  by rewrite !(is_a_insert _ _ _ _ _ _ Hi Hc).
Qed.

(** ** Constructors and setters, case by case *)

Ltac bad_args :=
  unfold str_between, nonempty_str;
  let H := fresh in
  intros H; decompose [and ex] H; congruence.

Lemma Author_init_cases name s :
  (nonempty_str name /\
   Author.__init__ name s = (Ok (length (heap s)), append_Author name s))
  \/ (~ nonempty_str name /\ exists e, Author.__init__ name s = (Raise e, s)).
Proof.
  unfold Author.__init__, nonempty_str.
  destruct name as [| |t|]; simpl; try (right; split; [bad_args | eauto]).
  monad_unfold. simpl.
  destruct (Z.eqb_spec (Z.of_nat (String.length t)) 0) as [E|E].
  - right. split; [| eauto]. intros (? & [= <-] & ?). done.
  - left. split; [eauto | by destruct s].
Qed.

Lemma Magazine_init_cases name category s :
  (str_between 2 16 name /\ nonempty_str category /\
   Magazine.__init__ name category s =
     (Ok (length (heap s)), append_Magazine name category s))
  \/ (~ (str_between 2 16 name /\ nonempty_str category) /\
      exists e, Magazine.__init__ name category s = (Raise e, s)).
Proof.
  unfold Magazine.__init__, str_between, nonempty_str.
  destruct name as [| |t|]; simpl; try (right; split; [bad_args | eauto]).
  monad_unfold. simpl.
  destruct (Z.leb_spec 2 (Z.of_nat (String.length t))); simpl;
    [| right; split; [| eauto]; intros [(? & [= <-] & ?) _]; lia].
  destruct (Z.leb_spec (Z.of_nat (String.length t)) 16); simpl;
    [| right; split; [| eauto]; intros [(? & [= <-] & ?) _]; lia].
  destruct category as [| |c|]; simpl; try (right; split; [bad_args | eauto]).
  destruct (Z.eqb_spec (Z.of_nat (String.length c)) 0) as [E|E].
  - right. split; [| eauto]. intros [_ (? & [= <-] & ?)]. done.
  - left. split; [eauto |]. split; [eauto |]. by destruct s.
Qed.

Lemma Article_init_cases author magazine title s :
  (is_a CAuthor (heap s) author = true /\ is_a CMagazine (heap s) magazine = true /\
   str_between 5 50 title /\
   Article.__init__ author magazine title s =
     (Ok (length (heap s)), append_Article author magazine title s))
  \/ (~ (is_a CAuthor (heap s) author = true /\
         is_a CMagazine (heap s) magazine = true /\ str_between 5 50 title) /\
      exists e, Article.__init__ author magazine title s = (Raise e, s)).
Proof.
  unfold Article.__init__, str_between. monad_unfold. simpl.
  destruct (is_a CAuthor (heap s) author) eqn:Ea; simpl;
    [| right; split; [bad_args | eauto]].
  destruct (is_a CMagazine (heap s) magazine) eqn:Em; simpl;
    [| right; split; [bad_args | eauto]].
  destruct title as [| |t|]; simpl; try (right; split; [bad_args | eauto]).
  destruct (Z.leb_spec 5 (Z.of_nat (String.length t))); simpl;
    [| right; split; [| eauto]; intros (_ & _ & ? & [= <-] & ?); lia].
  destruct (Z.leb_spec (Z.of_nat (String.length t)) 50); simpl;
    [| right; split; [| eauto]; intros (_ & _ & ? & [= <-] & ?); lia].
  left. repeat split; eauto.
Qed.

Lemma setattr_ok s self o f v o' :
  heap s !! self = Some o -> set_field o f v = Some o' ->
  setattr self f v s = (Ok tt, update s self o').
Proof. intros Hs Hf. monad_unfold. rewrite Hs. simpl. by rewrite Hf. Qed.

Lemma Article_author_setter_spec s self t a m v :
  heap s !! self = Some (ArticleObj t a m) ->
  Article.author_setter self v s =
  (Ok tt, if is_a CAuthor (heap s) v then update s self (ArticleObj t v m) else s).
Proof.
  intros Hs. unfold Article.author_setter, bind, isinstance, gets.
  destruct (is_a CAuthor (heap s) v); [| done].
  by erewrite setattr_ok.
Qed.

Lemma Article_magazine_setter_spec s self t a m v :
  heap s !! self = Some (ArticleObj t a m) ->
  Article.magazine_setter self v s =
  (Ok tt, if is_a CMagazine (heap s) v then update s self (ArticleObj t a v) else s).
Proof.
  intros Hs. unfold Article.magazine_setter, bind, isinstance, gets.
  destruct (is_a CMagazine (heap s) v); [| done].
  by erewrite setattr_ok.
Qed.

Lemma Magazine_name_setter_spec s self n c v :
  heap s !! self = Some (MagazineObj n c) ->
  Magazine.name_setter self v s =
  (Ok tt, if decide (str_between 2 16 v) then update s self (MagazineObj v c) else s).
Proof.
  intros Hs. unfold Magazine.name_setter.
  destruct v as [| |t|]; simpl; try done.
  unfold bind, ret. simpl.
  destruct (Z.leb_spec 2 (Z.of_nat (String.length t))); simpl;
    [| rewrite decide_False; [done | intros (? & [= <-] & ?); lia]].
  destruct (Z.leb_spec (Z.of_nat (String.length t)) 16); simpl;
    [| rewrite decide_False; [done | intros (? & [= <-] & ?); lia]].
  rewrite decide_True by (by exists t). by erewrite setattr_ok.
Qed.

Lemma Magazine_category_setter_spec s self n c v :
  heap s !! self = Some (MagazineObj n c) ->
  Magazine.category_setter self v s =
  (Ok tt, if decide (nonempty_str v) then update s self (MagazineObj n v) else s).
Proof.
  intros Hs. unfold Magazine.category_setter.
  destruct v as [| |t|]; simpl; try done.
  unfold bind, ret. simpl.
  destruct (Z.gtb_spec (Z.of_nat (String.length t)) 0); simpl.
  - rewrite decide_True by (exists t; split; [done | lia]). by erewrite setattr_ok.
  - rewrite decide_False; [done | intros (? & [= <-] & ?); lia].
Qed.

Lemma method_cases {A} c self (body : addr -> M A) s :
  (is_a c (heap s) (VRef self) = true /\ method c self body s = body self s)
  \/ (is_a c (heap s) (VRef self) = false /\
      method c self body s = (Raise AttributeError, s)).
Proof.
  unfold method, bind, isinstance, gets, raise.
  destruct (is_a c (heap s) (VRef self)); auto.
Qed.

Lemma void_snd {A} (m : M A) s : (void m s).2 = (m s).2.
Proof. unfold void, bind, ret. by destruct (m s) as [[?|?] ?]. Qed.

Lemma is_a_lookup c h self :
  is_a c h (VRef self) = true -> exists o, h !! self = Some o /\ class_of o = c.
Proof.
  simpl. destruct (h !! self) as [o|]; [| done].
  intros H%bool_decide_eq_true. eauto.
Qed.

(** ** Every call keeps the store well formed *)

Lemma wf_init : wf init.
Proof. by constructor. Qed.

Lemma wf_append_Author name s : wf s -> wf (append_Author name s).
Proof.
  intros [Ha Hm Ho]. constructor; simpl.
  - unfold instances. by rewrite instances_from_app, app_nil_r.
  - unfold instances. by rewrite instances_from_app, app_nil_r.
  - apply Forall_app. split; [| by repeat constructor].
    eapply Forall_impl; [done | auto using valid_object_app].
Qed.

Lemma wf_append_Magazine name category s : wf s -> wf (append_Magazine name category s).
Proof.
  intros [Ha Hm Ho]. constructor; simpl.
  - unfold instances. by rewrite instances_from_app, app_nil_r.
  - unfold instances. rewrite instances_from_app. simpl. by rewrite Hm.
  - apply Forall_app. split; [| by repeat constructor].
    eapply Forall_impl; [done | auto using valid_object_app].
Qed.

Lemma wf_append_Article author magazine title s :
  is_a CAuthor (heap s) author = true -> is_a CMagazine (heap s) magazine = true ->
  str_between 5 50 title ->
  wf s -> wf (append_Article author magazine title s).
Proof.
  intros Hau Hmag (t & -> & _) [Ha Hm Ho]. constructor; simpl.
  - unfold instances. rewrite instances_from_app. simpl. by rewrite Ha.
  - unfold instances. by rewrite instances_from_app, app_nil_r.
  - apply Forall_app. split.
    + eapply Forall_impl; [done | auto using valid_object_app].
    + repeat constructor; simpl; auto using is_a_app.
Qed.

Lemma wf_update s self o o' :
  heap s !! self = Some o -> class_of o' = class_of o ->
  valid_object (heap s) o' ->
  wf s -> wf (update s self o').
Proof.
  intros Hs Hc Hv [Ha Hm Ho]. constructor; simpl.
  - unfold instances. by erewrite instances_from_insert.
  - unfold instances. by erewrite instances_from_insert.
  - apply Forall_insert.
    + eapply Forall_impl; [done | eauto using valid_object_insert].
    + eauto using valid_object_insert.
Qed.

Lemma wf_lookup s a o : wf s -> heap s !! a = Some o -> valid_object (heap s) o.
Proof. intros [_ _ Ho] Ha. eapply Forall_lookup_1; eauto. Qed.

Lemma run_wf c s : wf s -> wf (run c s).2.
Proof.
  intros Hwf.
  assert (Hro : forall m : M unit, readonly m -> wf (m s).2).
  { intros m Hm. by rewrite Hm. }
  destruct c as [name | self | self v | self | self | self magazine title | self
                | name category | self | self v | self | self v | self | self
                | self | self | | author magazine title | self | self v | self
                | self v | self | self v];
    simpl; try (apply Hro; auto 10 with readonly; fail).
  - (* Author(name) *)
    rewrite void_snd.
    destruct (Author_init_cases name s) as [[_ ->] | [_ [e ->]]]; simpl;
      auto using wf_append_Author.
  - (* author.name = v *)
    apply Hro. apply readonly_method. intros ?. apply readonly_ret.
  - (* author.add_article(magazine, title) *)
    rewrite void_snd.
    destruct (method_cases CAuthor self
                (fun self => Author.add_article self magazine title) s)
      as [[_ ->] | [_ ->]]; [| done].
    unfold Author.add_article.
    destruct (Article_init_cases (VRef self) magazine title s)
      as [(? & ? & ? & ->) | [_ [e ->]]]; simpl; auto using wf_append_Article.
  - (* Magazine(name, category) *)
    rewrite void_snd.
    destruct (Magazine_init_cases name category s) as [(_ & _ & ->) | [_ [e ->]]];
      simpl; auto using wf_append_Magazine.
  - (* magazine.name = v *)
    destruct (method_cases CMagazine self
                (fun self => Magazine.name_setter self v) s)
      as [[Hc ->] | [_ ->]]; [| done].
    apply is_a_lookup in Hc as ([] & Hs & Hc); try done.
    rewrite (Magazine_name_setter_spec _ _ _ _ _ Hs).
    case_decide; simpl; [| done]. by eapply wf_update.
  - (* magazine.category = v *)
    destruct (method_cases CMagazine self
                (fun self => Magazine.category_setter self v) s)
      as [[Hc ->] | [_ ->]]; [| done].
    apply is_a_lookup in Hc as ([] & Hs & Hc); try done.
    rewrite (Magazine_category_setter_spec _ _ _ _ _ Hs).
    case_decide; simpl; [| done]. by eapply wf_update.
  - (* Article(author, magazine, title) *)
    rewrite void_snd.
    destruct (Article_init_cases author magazine title s)
      as [(? & ? & ? & ->) | [_ [e ->]]]; simpl; auto using wf_append_Article.
  - (* article.title = v *)
    apply Hro. apply readonly_method. intros ?. apply readonly_ret.
  - (* article.author = v *)
    destruct (method_cases CArticle self
                (fun self => Article.author_setter self v) s)
      as [[Hc ->] | [_ ->]]; [| done].
    apply is_a_lookup in Hc as ([] & Hs & Hc); try done.
    rewrite (Article_author_setter_spec _ _ _ _ _ _ Hs).
    destruct (is_a CAuthor (heap s) v) eqn:Hv; simpl; [| done].
    pose proof (wf_lookup _ _ _ Hwf Hs) as (? & ? & ?).
    eapply wf_update; eauto. by simpl.
  - (* article.magazine = v *)
    destruct (method_cases CArticle self
                (fun self => Article.magazine_setter self v) s)
      as [[Hc ->] | [_ ->]]; [| done].
    apply is_a_lookup in Hc as ([] & Hs & Hc); try done.
    rewrite (Article_magazine_setter_spec _ _ _ _ _ _ Hs).
    destruct (is_a CMagazine (heap s) v) eqn:Hv; simpl; [| done].
    pose proof (wf_lookup _ _ _ Hwf Hs) as (? & ? & ?).
    eapply wf_update; eauto. by simpl.
Qed.

Lemma exec_wf cs s : wf s -> wf (exec cs s).
Proof.
  revert s. induction cs as [|c cs IH]; intros s Hwf; simpl; [done |].
  apply IH. by apply run_wf.
Qed.

Lemma reachable_wf cs : wf (exec cs init).
Proof. apply exec_wf, wf_init. Qed.

(** ** Loops and comprehensions that only read *)

Lemma filterM_pure {A} (p : A -> M bool) (P : A -> Prop)
    `{!forall a, Decision (P a)} (l : list A) s :
  (forall a, a ∈ l -> p a s = (Ok (bool_decide (P a)), s)) ->
  filterM p l s = (Ok (filter P l), s).
Proof.
  induction l as [|x l IH]; intros Hp; simpl; [done |].
  unfold bind. rewrite Hp by left.
  rewrite IH by (intros a Ha; apply Hp; by right).
  unfold ret. rewrite filter_cons. by case_bool_decide; case_decide.
Qed.

Lemma foldM_pure {A B} (body : B -> A -> M B) (f : B -> A -> B) (l : list A) acc s :
  (forall acc a, a ∈ l -> body acc a s = (Ok (f acc a), s)) ->
  foldM body acc l s = (Ok (foldl f acc l), s).
Proof.
  revert acc. induction l as [|x l IH]; intros acc Hb; simpl; [done |].
  unfold bind. rewrite Hb by left.
  apply IH. intros acc' a Ha. apply Hb. by right.
Qed.

Lemma getattr_field s a f o v :
  heap s !! a = Some o -> get_field o f = Some v ->
  getattr (VRef a) f s = (Ok v, s).
Proof. intros Ha Hf. monad_unfold. rewrite Ha. simpl. by rewrite Hf. Qed.

(** What the registry holds in a well-formed store. *)
Lemma wf_registered_article s a :
  wf s -> a ∈ Article_all s ->
  exists t au m,
    heap s !! a = Some (ArticleObj (VStr t) (VRef au) (VRef m)) /\
    class_of <$> heap s !! au = Some CAuthor /\
    class_of <$> heap s !! m = Some CMagazine.
Proof.
  intros Hwf Ha. rewrite (wf_articles _ Hwf) in Ha.
  apply elem_of_instances in Ha.
  destruct (heap s !! a) as [o|] eqn:Ho; [| done].
  pose proof (wf_lookup _ _ _ Hwf Ho) as Hv.
  destruct o as [| |t au m]; simpl in Ha; try done.
  destruct Hv as (Ht & (x & -> & Hx)%is_a_true & (y & -> & Hy)%is_a_true).
  destruct t; try done. eauto 10.
Qed.

Lemma Article_author_wf s a :
  wf s -> a ∈ Article_all s -> Article.author a s = (Ok (field s a _author), s).
Proof.
  intros Hwf Ha.
  destruct (wf_registered_article _ _ Hwf Ha) as (t & au & m & Ho & _).
  unfold Article.author, field.
  rewrite (getattr_field s a _author _ (VRef au) Ho eq_refl). by rewrite Ho.
Qed.

Lemma Article_magazine_wf s a :
  wf s -> a ∈ Article_all s -> Article.magazine a s = (Ok (field s a _magazine), s).
Proof.
  intros Hwf Ha.
  destruct (wf_registered_article _ _ Hwf Ha) as (t & au & m & Ho & _).
  unfold Article.magazine, field.
  rewrite (getattr_field s a _magazine _ (VRef m) Ho eq_refl). by rewrite Ho.
Qed.

Lemma Author_articles_wf s self :
  wf s ->
  Author.articles self s =
  (Ok (filter (fun a => field s a _author = VRef self) (Article_all s)), s).
Proof.
  intros Hwf. unfold Author.articles, bind, gets.
  apply filterM_pure. intros a Ha.
  by rewrite (Article_author_wf _ _ Hwf Ha).
Qed.

Lemma Magazine_articles_wf s self :
  wf s ->
  Magazine.articles self s =
  (Ok (filter (fun a => field s a _magazine = VRef self) (Article_all s)), s).
Proof.
  intros Hwf. unfold Magazine.articles, bind, gets.
  apply filterM_pure. intros a Ha.
  by rewrite (Article_magazine_wf _ _ Hwf Ha).
Qed.

Lemma field_author_registered s a self :
  wf s -> a ∈ Article_all s ->
  field s a _author = VRef self <->
  exists t m, heap s !! a = Some (ArticleObj t (VRef self) m).
Proof.
  intros Hwf Ha.
  destruct (wf_registered_article _ _ Hwf Ha) as (t & au & m & Ho & _).
  unfold field. rewrite Ho. simpl. split.
  - intros [= ->]. eauto.
  - by intros (? & ? & [= _ -> _]).
Qed.

Lemma field_magazine_registered s a self :
  wf s -> a ∈ Article_all s ->
  field s a _magazine = VRef self <->
  exists t au, heap s !! a = Some (ArticleObj t au (VRef self)).
Proof.
  intros Hwf Ha.
  destruct (wf_registered_article _ _ Hwf Ha) as (t & au & m & Ho & _).
  unfold field. rewrite Ho. simpl. split.
  - intros [= ->]. eauto.
  - by intros (? & ? & [= _ _ ->]).
Qed.

(** ** Attributes no call rewrites *)

Lemma frozen_refl o : frozen o o.
Proof. by destruct o. Qed.

Lemma frozen_trans o1 o2 o3 : frozen o1 o2 -> frozen o2 o3 -> frozen o1 o3.
Proof. destruct o1, o2, o3; simpl; try done; congruence. Qed.

Lemma frozen_update s self o o' a x :
  heap s !! self = Some o -> frozen o o' -> heap s !! a = Some x ->
  exists x', heap (update s self o') !! a = Some x' /\ frozen x x'.
Proof.
  intros Hs Hf Ha. simpl. destruct (decide (self = a)) as [-> | Hne].
  - rewrite list_lookup_insert_eq by (by eapply lookup_lt_Some).
    exists o'. split; [done | congruence].
  - rewrite list_lookup_insert_ne by done. eauto using frozen_refl.
Qed.

Lemma run_frozen c s a o :
  heap s !! a = Some o ->
  exists o', heap (run c s).2 !! a = Some o' /\ frozen o o'.
Proof.
  intros Ha.
  assert (Hro : forall m : M unit, readonly m ->
            exists o', heap (m s).2 !! a = Some o' /\ frozen o o').
  { intros m Hm. rewrite Hm. eauto using frozen_refl. }
  assert (Happ : forall x, exists o', (heap s ++ [x]) !! a = Some o' /\ frozen o o').
  { intros x. rewrite (lookup_app_l_Some _ _ _ _ Ha). eauto using frozen_refl. }
  destruct c as [name | self | self v | self | self | self magazine title | self
                | name category | self | self v | self | self v | self | self
                | self | self | | author magazine title | self | self v | self
                | self v | self | self v];
    simpl; try (apply Hro; auto 10 with readonly; fail).
  - rewrite void_snd.
    destruct (Author_init_cases name s) as [[_ ->] | [_ [e ->]]]; simpl;
      eauto using frozen_refl.
  - apply Hro. apply readonly_method. intros ?. apply readonly_ret.
  - rewrite void_snd.
    destruct (method_cases CAuthor self
                (fun self => Author.add_article self magazine title) s)
      as [[_ ->] | [_ ->]]; [| eauto using frozen_refl].
    unfold Author.add_article.
    destruct (Article_init_cases (VRef self) magazine title s)
      as [(? & ? & ? & ->) | [_ [e ->]]]; simpl; eauto using frozen_refl.
  - rewrite void_snd.
    destruct (Magazine_init_cases name category s) as [(_ & _ & ->) | [_ [e ->]]];
      simpl; eauto using frozen_refl.
  - destruct (method_cases CMagazine self
                (fun self => Magazine.name_setter self v) s)
      as [[Hc ->] | [_ ->]]; [| eauto using frozen_refl].
    apply is_a_lookup in Hc as ([] & Hs & Hc); try done.
    rewrite (Magazine_name_setter_spec _ _ _ _ _ Hs).
    case_decide; [| eauto using frozen_refl].
    by eapply frozen_update.
  - destruct (method_cases CMagazine self
                (fun self => Magazine.category_setter self v) s)
      as [[Hc ->] | [_ ->]]; [| eauto using frozen_refl].
    apply is_a_lookup in Hc as ([] & Hs & Hc); try done.
    rewrite (Magazine_category_setter_spec _ _ _ _ _ Hs).
    case_decide; [| eauto using frozen_refl].
    by eapply frozen_update.
  - rewrite void_snd.
    destruct (Article_init_cases author magazine title s)
      as [(? & ? & ? & ->) | [_ [e ->]]]; simpl; eauto using frozen_refl.
  - apply Hro. apply readonly_method. intros ?. apply readonly_ret.
  - destruct (method_cases CArticle self
                (fun self => Article.author_setter self v) s)
      as [[Hc ->] | [_ ->]]; [| eauto using frozen_refl].
    apply is_a_lookup in Hc as ([] & Hs & Hc); try done.
    rewrite (Article_author_setter_spec _ _ _ _ _ _ Hs).
    destruct (is_a CAuthor (heap s) v); [| eauto using frozen_refl].
    by eapply frozen_update.
  - destruct (method_cases CArticle self
                (fun self => Article.magazine_setter self v) s)
      as [[Hc ->] | [_ ->]]; [| eauto using frozen_refl].
    apply is_a_lookup in Hc as ([] & Hs & Hc); try done.
    rewrite (Article_magazine_setter_spec _ _ _ _ _ _ Hs).
    destruct (is_a CMagazine (heap s) v); [| eauto using frozen_refl].
    by eapply frozen_update.
Qed.

Lemma exec_frozen cs s a o :
  heap s !! a = Some o ->
  exists o', heap (exec cs s) !! a = Some o' /\ frozen o o'.
Proof.
  revert s o. induction cs as [|c cs IH]; intros s o Ha; simpl.
  - eauto using frozen_refl.
  - destruct (run_frozen c s a o Ha) as (o1 & H1 & F1).
    destruct (IH _ _ H1) as (o2 & H2 & F2).
    eauto using frozen_trans.
Qed.

(** ** Dictionaries used as counters *)

Lemma dict_get_set d k v k' def :
  dict_get (dict_set d k v) k' def = if decide (k = k') then v else dict_get d k' def.
Proof.
  induction d as [|[k0 v0] d IH]; simpl.
  - by case_bool_decide; case_decide.
  - case_bool_decide as E0; simpl.
    + subst k0. by case_bool_decide; case_decide.
    + rewrite IH. case_bool_decide; case_decide; congruence.
Qed.

Lemma dict_set_keys d k v :
  (dict_set d k v).*1 = if decide (k ∈ d.*1) then d.*1 else d.*1 ++ [k].
Proof.
  induction d as [|[k0 v0] d IH]; [done |].
  cbn [dict_set]. case_bool_decide as E0; rewrite !fmap_cons; cbn [fst].
  - subst k0. rewrite decide_True; [done | left].
  - rewrite IH. destruct (decide (k ∈ d.*1)) as [Hin | Hin].
    + rewrite decide_True; [done | by right].
    + rewrite decide_False; [done |].
      intros [? | ?]%elem_of_cons; congruence.
Qed.

Lemma dict_get_default d k def : k ∉ d.*1 -> dict_get d k def = def.
Proof.
  induction d as [|[k0 v0] d IH]; simpl; [done |].
  intros Hn. case_bool_decide as E0.
  - subst. destruct Hn. left.
  - apply IH. intros ?. apply Hn. by right.
Qed.

Lemma dict_get_elem d k v def : NoDup d.*1 -> (k, v) ∈ d -> dict_get d k def = v.
Proof.
  induction d as [|[k0 v0] d IH]; simpl; intros Hnd Hin.
  - by apply elem_of_nil in Hin.
  - apply NoDup_cons in Hnd as [Hk0 Hnd].
    apply elem_of_cons in Hin as [[= -> ->] | Hin].
    + by rewrite bool_decide_eq_true_2.
    + case_bool_decide as E0; [| by apply IH].
      subst k0. destruct Hk0.
      by apply (list_elem_of_fmap_2 fst) in Hin.
Qed.

Lemma dict_elem_get d k def : k ∈ d.*1 -> (k, dict_get d k def) ∈ d.
Proof.
  induction d as [|[k0 v0] d IH]; simpl; intros Hin.
  - by apply elem_of_nil in Hin.
  - case_bool_decide as E0.
    + subst. left.
    + right. apply IH. by apply elem_of_cons in Hin as [? | ?]; [congruence |].
Qed.

Section tally.
Context {A : Type} (key : A -> value).

Lemma tally_get d l k :
  dict_get (tally key d l) k 0 =
  dict_get d k 0 + Z.of_nat (length (filter (fun a => key a = k) l)).
Proof.
  revert d. induction l as [|a l IH]; intros d; simpl; [lia |].
  unfold tally in *. rewrite IH, dict_get_set, filter_cons.
  case_decide as E; [subst; simpl |]; lia.
Qed.

Lemma tally_NoDup d l : NoDup d.*1 -> NoDup (tally key d l).*1.
Proof.
  revert d. induction l as [|a l IH]; intros d Hnd; simpl; [done |].
  apply IH. rewrite dict_set_keys. case_decide as E; [done |].
  apply NoDup_app. split; [done |]. split; [| apply NoDup_singleton].
  intros x Hx ->%list_elem_of_singleton. done.
Qed.

(** The keys counted more than twice, as the comprehension over
    [counts.items()] collects them. *)
Lemma tally_more_than_2 l v :
  v ∈ (filter (fun '(_, cnt) => cnt > 2) (dict_items (tally key [] l))).*1 <->
  2 < Z.of_nat (length (filter (fun a => key a = v) l)).
Proof.
  pose proof (tally_get [] l v) as Hget. simpl in Hget.
  pose proof (tally_NoDup [] l (NoDup_nil_2)) as Hnd.
  unfold dict_items. rewrite list_elem_of_fmap. split.
  - intros ([k c] & -> & [Hc Hin]%list_elem_of_filter). simpl in *.
    rewrite (dict_get_elem _ _ _ 0 Hnd Hin) in Hget. lia.
  - intros Hv. exists (v, dict_get (tally key [] l) v 0). split; [done |].
    apply list_elem_of_filter. split; [lia |].
    apply dict_elem_get.
    destruct (decide (v ∈ (tally key [] l).*1)) as [? | Hn]; [done |].
    rewrite (dict_get_default _ _ 0 Hn) in Hget. lia.
Qed.

Lemma tally_result_NoDup l :
  NoDup (filter (fun '(_, cnt) => cnt > 2) (dict_items (tally key [] l))).*1.
Proof.
  eapply sublist_NoDup; [apply (tally_NoDup [] l), NoDup_nil_2 |].
  apply fmap_sublist, sublist_filter.
Qed.
End tally.

(** ** The leader among the magazines *)

Section leader.
Variable cnt : addr -> Z.
Hypothesis cnt_nonneg : forall m, 0 <= cnt m.

Lemma leads_step seen acc x :
  leads cnt seen acc -> leads cnt (seen ++ [x]) (leader_step cnt acc x).
Proof.
  destruct acc as [[b|] bc]; unfold leads, leader_step; simpl.
  - intros (Hpos & -> & i & Hi & Hmax).
    pose proof (lookup_lt_Some _ _ _ Hi) as Hlt.
    destruct (Z.gtb_spec (cnt x) (cnt b)) as [Hgt | Hle]; simpl.
    + split; [lia |]. split; [done |]. exists (length seen). split.
      * by rewrite lookup_app_r, Nat.sub_diag by lia.
      * intros j m Hj. apply lookup_app_Some in Hj as [Hj | [Hge Hj]].
        -- destruct (Hmax _ _ Hj). lia.
        -- apply list_lookup_singleton_Some in Hj as [? ->]. lia.
    + split; [done |]. split; [done |]. exists i. split.
      * by apply lookup_app_l_Some.
      * intros j m Hj. apply lookup_app_Some in Hj as [Hj | [Hge Hj]].
        -- by apply Hmax.
        -- apply list_lookup_singleton_Some in Hj as [? ->]. lia.
  - intros [-> Hzero].
    destruct (Z.gtb_spec (cnt x) 0) as [Hgt | Hle]; simpl.
    + split; [lia |]. split; [done |]. exists (length seen). split.
      * by rewrite lookup_app_r, Nat.sub_diag by lia.
      * intros j m Hj. apply lookup_app_Some in Hj as [Hj | [Hge Hj]].
        -- pose proof (lookup_lt_Some _ _ _ Hj).
           rewrite (Hzero m) by (by eapply list_elem_of_lookup_2). lia.
        -- apply list_lookup_singleton_Some in Hj as [? ->]. lia.
    + split; [done |]. intros m [Hm | ->%list_elem_of_singleton]%elem_of_app.
      * by apply Hzero.
      * specialize (cnt_nonneg x). lia.
Qed.

Lemma leads_foldl seen acc l :
  leads cnt seen acc -> leads cnt (seen ++ l) (foldl (leader_step cnt) acc l).
Proof.
  revert seen acc. induction l as [|x l IH]; intros seen acc H; simpl.
  - by rewrite app_nil_r.
  - rewrite cons_middle, app_assoc. by apply IH, leads_step.
Qed.

Lemma leads_all l : leads cnt l (foldl (leader_step cnt) (None, 0) l).
Proof.
  apply (leads_foldl [] (None, 0) l). split; [done |].
  intros m Hm. by apply elem_of_nil in Hm.
Qed.
End leader.

(** ** The queries on a well-formed store *)

Lemma article_count_nonneg s m : 0 <= article_count s m.
Proof. unfold article_count. lia. Qed.

Lemma top_publisher_wf s :
  wf s ->
  Magazine.top_publisher s =
  (Ok (match Article_all s with
       | [] => None
       | _ => (foldl (leader_step (article_count s)) (None, 0) (Magazine__all s)).1
       end), s).
Proof.
  intros Hwf. unfold Magazine.top_publisher, bind, gets.
  destruct (Article_all s) as [|a0 all] eqn:Eall; [done |].
  erewrite foldM_pure; [done |].
  intros [best best_count] mag _.
  erewrite (filterM_pure _ (fun a => field s a _magazine = VRef mag)).
  - unfold leader_step, article_count. by destruct (_ >? _).
  - intros a Ha. by rewrite (Article_magazine_wf _ _ Hwf Ha).
Qed.

Lemma contributing_authors_wf s self :
  wf s ->
  Magazine.contributing_authors self s =
  (Ok (match filter (fun a => field s a _magazine = VRef self) (Article_all s) with
       | [] => None
       | arts =>
           match (filter (fun '(_, cnt) => cnt > 2)
                    (dict_items (tally (fun a => field s a _author) [] arts))).*1 with
           | [] => None
           | result => Some result
           end
       end), s).
Proof.
  intros Hwf. unfold Magazine.contributing_authors, bind.
  rewrite (Magazine_articles_wf _ _ Hwf).
  pose proof (list_subseteq_filter
                (fun a => field s a _magazine = VRef self) (Article_all s)) as Hsub.
  destruct (filter _ (Article_all s)) as [|a0 arts]; [done |].
  erewrite (foldM_pure _ (fun counts a =>
              dict_set counts (field s a _author)
                       (dict_get counts (field s a _author) 0 + 1))).
  - unfold ret, tally. by destruct (_.*1).
  - intros counts a Ha. unfold bind. by rewrite (Article_author_wf _ _ Hwf) by auto.
Qed.

Lemma reachable_is_wf s : reachable s -> wf s.
Proof. intros [cs ->]. apply reachable_wf. Qed.

Example demo_store :
  demo = mkState
    [ AuthorObj (VStr "Ada"); AuthorObj (VStr "Bob");
      MagazineObj (VStr "Tech") (VStr "Science");
      MagazineObj (VStr "Vogue") (VStr "Fashion");
      ArticleObj (VStr "A Great Title") (VRef 0%nat) (VRef 2%nat);
      ArticleObj (VStr "Second Title") (VRef 0%nat) (VRef 2%nat);
      ArticleObj (VStr "Third Title") (VRef 0%nat) (VRef 2%nat);
      ArticleObj (VStr "First by Bob") (VRef 1%nat) (VRef 2%nat);
      ArticleObj (VStr "Second by Bob") (VRef 1%nat) (VRef 2%nat);
      ArticleObj (VStr "In Vogue now") (VRef 1%nat) (VRef 3%nat) ]
    [2; 3]%nat [4; 5; 6; 7; 8; 9]%nat.
Proof. reflexivity. Qed.

Example demo_Author_articles :
  (Author.articles 1%nat demo).1 = Ok [7; 8; 9]%nat.
Proof. reflexivity. Qed.

Example demo_contributing_authors :
  (Magazine.contributing_authors 2%nat demo).1 = Ok (Some [VRef 0%nat]) /\
  (Magazine.contributing_authors 3%nat demo).1 = Ok None.
Proof. split; reflexivity. Qed.

Example demo_top_publisher : (Magazine.top_publisher demo).1 = Ok (Some 2%nat).
Proof. reflexivity. Qed.

(** Two magazines with one article each: the one registered first wins. *)
Example top_publisher_tie :
  (Magazine.top_publisher
     (exec [ New_Author (VStr "Ada");
             New_Magazine (VStr "Tech") (VStr "Science");
             New_Magazine (VStr "Vogue") (VStr "Fashion");
             New_Article (VRef 0%nat) (VRef 2%nat) (VStr "In Vogue now");
             New_Article (VRef 0%nat) (VRef 1%nat) (VStr "A Great Title") ]
           init)).1 = Ok (Some 1%nat).
Proof. reflexivity. Qed.

Example demo_topic_areas :
  (Author.topic_areas 1%nat demo).1 = Ok (Some [VStr "Science"; VStr "Fashion"]).
Proof. reflexivity. Qed.

(** * The specification, claim by claim *)

(** C1. [Magazine.top_publisher()] returns [None] when [Article.all] is
    empty.  Otherwise it returns a magazine [best] of [Magazine._all] such
    that no Magazine instance has more articles in [Article.all] than
    [best], and every magazine that comes before [best] in [Magazine._all]
    has strictly fewer: on equal counts the earliest one is kept. *)
Theorem top_publisher_most_articles_earliest_on_ties (s : state) :
  reachable s ->
  exists r,
    Magazine.top_publisher s = (Ok r, s) /\
    (Article_all s = [] -> r = None) /\
    (Article_all s <> [] ->
     exists best i,
       r = Some best /\ Magazine__all s !! i = Some best /\
       (forall m n c, heap s !! m = Some (MagazineObj n c) ->
                      article_count s m <= article_count s best) /\
       (forall j m, Magazine__all s !! j = Some m ->
                    article_count s m <= article_count s best /\
                    ((j < i)%nat -> article_count s m < article_count s best))).
Proof.
  intros Hwf%reachable_is_wf. eexists. split; [by apply top_publisher_wf |].
  split; [by intros -> |]. intros Hne.
  destruct (Article_all s) as [|a0 all] eqn:Eall; [done |].
  pose proof (leads_all (article_count s) (article_count_nonneg s) (Magazine__all s))
    as Hlead.
  assert (Hreg : forall m n c, heap s !! m = Some (MagazineObj n c) ->
                               m ∈ Magazine__all s).
  { intros m n c Hm. rewrite (wf_magazines _ Hwf). apply elem_of_instances.
    by rewrite Hm. }
  destruct (foldl _ _ _) as [[b|] bc]; unfold leads in Hlead; simpl in *.
  - destruct Hlead as (_ & _ & i & Hi & Hmax). exists b, i.
    repeat split; try done; try (by eapply Hmax).
    intros m n c Hm. apply Hreg, list_elem_of_lookup_1 in Hm as [j Hj].
    by eapply Hmax.
  - exfalso. destruct Hlead as [_ Hzero].
    assert (Ha0 : a0 ∈ Article_all s) by (rewrite Eall; left).
    destruct (wf_registered_article _ _ Hwf Ha0) as (t & au & m & Ho & _ & Hm).
    destruct (heap s !! m) as [[| n c |]|] eqn:Em; try done.
    specialize (Hzero m (Hreg _ _ _ Em)). unfold article_count in Hzero.
    assert (Hin : a0 ∈ filter (fun a => field s a _magazine = VRef m) (Article_all s)).
    { apply list_elem_of_filter. split; [| done]. unfold field. by rewrite Ho. }
    destruct (filter _ (Article_all s)); [by apply elem_of_nil in Hin | simpl in *; lia].
Qed.

Lemma top_publisher_most_articles_earliest_on_ties_witness :
  reachable demo /\
  exists best,
    Magazine.top_publisher demo = (Ok (Some best), demo) /\
    forall m n c, heap demo !! m = Some (MagazineObj n c) ->
                  article_count demo m <= article_count demo best.
Proof.
  assert (Hr : reachable demo) by (exists demo_calls; reflexivity).
  split; [exact Hr |].
  destruct (top_publisher_most_articles_earliest_on_ties demo Hr)
    as (r & Hrun & _ & Hsome).
  destruct Hsome as (best & i & -> & _ & Hmax & _); [discriminate |].
  exists best. split; [exact Hrun | exact Hmax].
Defined.

(** C2. [magazine.contributing_authors()] returns [None] if the magazine has
    no article.  Otherwise it returns the authors who appear in strictly
    more than 2 of the magazine's articles, each once, and [None] when
    there is no such author. *)
Theorem contributing_authors_more_than_two (s : state) (self : addr) :
  reachable s ->
  exists r,
    Magazine.contributing_authors self s = (Ok r, s) /\
    ((forall a, a ∈ Article_all s -> field s a _magazine <> VRef self) -> r = None) /\
    match r with
    | None => forall v, appearances s self v <= 2
    | Some l =>
        l <> [] /\ NoDup l /\
        (forall v, v ∈ l <-> 2 < appearances s self v) /\
        (forall v, v ∈ l -> is_a CAuthor (heap s) v = true)
    end.
Proof.
  intros Hwf%reachable_is_wf. eexists.
  split; [by apply contributing_authors_wf |].
  assert (Happ : forall arts v,
            arts = filter (fun a => field s a _magazine = VRef self) (Article_all s) ->
            Z.of_nat (length (filter (fun a => field s a _author = v) arts)) =
            appearances s self v).
  { intros arts v ->. unfold appearances. rewrite list_filter_filter.
    do 2 f_equal. apply list_filter_iff. tauto. }
  pose proof (list_subseteq_filter
                (fun a => field s a _magazine = VRef self) (Article_all s)) as Hsub.
  destruct (filter _ (Article_all s)) as [|a0 arts] eqn:Earts.
  { split; [done |]. intros v. rewrite <- (Happ [] v eq_refl). simpl. lia. }
  split.
  { intros Hnone. exfalso.
    assert (Hin : a0 ∈ filter (fun a => field s a _magazine = VRef self) (Article_all s))
      by (rewrite Earts; left).
    apply list_elem_of_filter in Hin as [? ?]. by eapply Hnone. }
  pose proof (tally_more_than_2 (fun a => field s a _author) (a0 :: arts)) as Hmem.
  pose proof (tally_result_NoDup (fun a => field s a _author) (a0 :: arts)) as Hnd.
  destruct (_.*1) as [|v0 l].
  - intros v. rewrite <- (Happ _ v eq_refl).
    specialize (Hmem v). rewrite elem_of_nil in Hmem. lia.
  - split; [done |]. split; [done |]. split.
    + intros v. by rewrite <- (Happ _ v eq_refl).
    + intros v Hv%Hmem.
      destruct (filter (fun a => field s a _author = v) (a0 :: arts))
        as [|a l'] eqn:Ef; [simpl in Hv; lia |].
      assert (Ha : a ∈ filter (fun a => field s a _author = v) (a0 :: arts))
        by (rewrite Ef; left).
      apply list_elem_of_filter in Ha as [<- Ha%Hsub].
      destruct (wf_registered_article _ _ Hwf Ha) as (t & au & m & Ho & Hau & _).
      unfold field. rewrite Ho. cbn [mbind option_bind get_field default].
      apply is_a_true. eauto.
Qed.

Lemma contributing_authors_more_than_two_witness :
  reachable demo /\
  exists l,
    Magazine.contributing_authors 2%nat demo = (Ok (Some l), demo) /\
    forall v, v ∈ l <-> 2 < appearances demo 2%nat v.
Proof.
  assert (Hr : reachable demo) by (exists demo_calls; reflexivity).
  split; [exact Hr |].
  destruct (contributing_authors_more_than_two demo 2%nat Hr) as (r & Hrun & _ & Hr2).
  destruct r as [l|].
  - exists l. split; [exact Hrun | apply Hr2].
  - specialize (Hr2 (VRef 0%nat)). vm_compute in Hr2. by destruct Hr2.
Defined.

(** C3. [author.articles()] returns exactly the articles of [Article.all]
    whose author is this very instance, in the order of the registry, each
    once; the registry lists the Article instances in creation order. *)
Theorem Author_articles_exact_in_registry_order (s : state) (self : addr) :
  reachable s ->
  exists l,
    Author.articles self s = (Ok l, s) /\
    l `sublist_of` Article_all s /\
    NoDup l /\
    (forall a, a ∈ l <->
               a ∈ Article_all s /\
               exists t m, heap s !! a = Some (ArticleObj t (VRef self) m)) /\
    Article_all s = instances CArticle (heap s).
Proof.
  intros Hwf%reachable_is_wf. eexists.
  split; [by apply Author_articles_wf |].
  split; [apply sublist_filter |].
  split.
  { apply NoDup_filter. rewrite (wf_articles _ Hwf). apply NoDup_instances_from. }
  split; [| apply (wf_articles _ Hwf)].
  intros a. rewrite list_elem_of_filter. split.
  - intros [Hf Ha]. split; [done |]. by apply field_author_registered.
  - intros [Ha Hf]. split; [| done]. by apply field_author_registered.
Qed.

Lemma Author_articles_exact_in_registry_order_witness :
  reachable demo /\
  exists l,
    Author.articles 0%nat demo = (Ok l, demo) /\
    l `sublist_of` Article_all demo /\ NoDup l.
Proof.
  assert (Hr : reachable demo) by (exists demo_calls; reflexivity).
  split; [exact Hr |].
  destruct (Author_articles_exact_in_registry_order demo 0%nat Hr)
    as (l & Hrun & Hsub & Hnd & _).
  exists l. auto.
Defined.

(** C4. A call of the Article or the Magazine constructor whose arguments
    fail validation raises, and leaves [Article.all] and [Magazine._all] as
    they were. *)
Theorem failed_construction_registers_nothing (s : state) :
  (forall author magazine title,
     ~ (is_a CAuthor (heap s) author = true /\
        is_a CMagazine (heap s) magazine = true /\ str_between 5 50 title) ->
     exists e s',
       Article.__init__ author magazine title s = (Raise e, s') /\
       Article_all s' = Article_all s /\ Magazine__all s' = Magazine__all s) /\
  (forall name category,
     ~ (str_between 2 16 name /\ nonempty_str category) ->
     exists e s',
       Magazine.__init__ name category s = (Raise e, s') /\
       Article_all s' = Article_all s /\ Magazine__all s' = Magazine__all s).
Proof.
  split.
  - intros author magazine title Hbad.
    destruct (Article_init_cases author magazine title s)
      as [(? & ? & ? & _) | [_ [e ->]]]; [tauto | eauto].
  - intros name category Hbad.
    destruct (Magazine_init_cases name category s)
      as [(? & ? & _) | [_ [e ->]]]; [tauto | eauto].
Qed.

Lemma failed_construction_registers_nothing_witness :
  (exists e s',
     Article.__init__ (VRef 0%nat) (VRef 2%nat) (VStr "Tiny") demo = (Raise e, s') /\
     Article_all s' = Article_all demo /\ Magazine__all s' = Magazine__all demo) /\
  (exists e s',
     Magazine.__init__ (VStr "X") (VStr "Science") demo = (Raise e, s') /\
     Article_all s' = Article_all demo /\ Magazine__all s' = Magazine__all demo).
Proof.
  destruct (failed_construction_registers_nothing demo) as [Ha Hm]. split.
  - apply Ha. intros (_ & _ & t & [= <-] & Hlen). vm_compute in Hlen.
    destruct Hlen as [Hlo _]. by apply Hlo.
  - apply Hm. intros [(t & [= <-] & Hlen) _]. vm_compute in Hlen.
    destruct Hlen as [Hlo _]. by apply Hlo.
Defined.

(** C5. On a Magazine, the [name] setter stores the value only when it is a
    string of 2 to 16 characters and the [category] setter only when it is
    a non-empty string; any other assignment raises nothing and leaves the
    store, hence the earlier value, as it was.  Assigning ["X"] to [name]
    changes nothing. *)
Theorem Magazine_setters_apply_valid_else_ignore
    (s : state) (self : addr) (n c v : value) :
  heap s !! self = Some (MagazineObj n c) ->
  (exists s',
     Magazine.name_setter self v s = (Ok tt, s') /\
     heap s' !! self =
       Some (MagazineObj (if decide (str_between 2 16 v) then v else n) c) /\
     Magazine.name self s' =
       (Ok (if decide (str_between 2 16 v) then v else n), s') /\
     (~ str_between 2 16 v -> s' = s)) /\
  (exists s',
     Magazine.category_setter self v s = (Ok tt, s') /\
     heap s' !! self =
       Some (MagazineObj n (if decide (nonempty_str v) then v else c)) /\
     Magazine.category self s' =
       (Ok (if decide (nonempty_str v) then v else c), s') /\
     (~ nonempty_str v -> s' = s)) /\
  Magazine.name_setter self (VStr "X") s = (Ok tt, s).
Proof.
  intros Hs. pose proof (lookup_lt_Some _ _ _ Hs) as Hlt.
  split; [| split].
  - eexists. split; [apply (Magazine_name_setter_spec _ _ _ _ _ Hs) |].
    destruct (decide (str_between 2 16 v)) as [Hv | Hv].
    + assert (Hl : heap (update s self (MagazineObj v c)) !! self
                   = Some (MagazineObj v c))
        by (by apply list_lookup_insert_eq).
      split; [done |]. split; [| done].
      unfold Magazine.name. by erewrite getattr_field.
    + split; [done |]. split; [| done].
      unfold Magazine.name. by erewrite getattr_field.
  - eexists. split; [apply (Magazine_category_setter_spec _ _ _ _ _ Hs) |].
    destruct (decide (nonempty_str v)) as [Hv | Hv].
    + assert (Hl : heap (update s self (MagazineObj n v)) !! self
                   = Some (MagazineObj n v))
        by (by apply list_lookup_insert_eq).
      split; [done |]. split; [| done].
      unfold Magazine.category. by erewrite getattr_field.
    + split; [done |]. split; [| done].
      unfold Magazine.category. by erewrite getattr_field.
  - by rewrite (Magazine_name_setter_spec _ _ _ _ _ Hs).
Qed.

Lemma Magazine_setters_apply_valid_else_ignore_witness :
  heap demo !! 2%nat = Some (MagazineObj (VStr "Tech") (VStr "Science")) /\
  Magazine.name_setter 2%nat (VStr "X") demo = (Ok tt, demo).
Proof.
  assert (H : heap demo !! 2%nat = Some (MagazineObj (VStr "Tech") (VStr "Science")))
    by reflexivity.
  split; [exact H |].
  apply (Magazine_setters_apply_valid_else_ignore demo 2%nat _ _ VNone H).
Defined.

(** C6. In every store a client can build, each Article holds a reference
    to an Author instance and a reference to a Magazine instance.  The
    [author] setter replaces the reference exactly when the value is an
    Author instance, the [magazine] setter exactly when it is a Magazine
    instance; otherwise the assignment does nothing. *)
Theorem Article_always_has_author_and_magazine
    (s : state) (self : addr) (t a m : value) :
  reachable s ->
  heap s !! self = Some (ArticleObj t a m) ->
  is_a CAuthor (heap s) a = true /\
  is_a CMagazine (heap s) m = true /\
  (forall v,
     Article.author_setter self v s =
     (Ok tt, if is_a CAuthor (heap s) v
             then update s self (ArticleObj t v m) else s)) /\
  (forall v,
     Article.magazine_setter self v s =
     (Ok tt, if is_a CMagazine (heap s) v
             then update s self (ArticleObj t a v) else s)).
Proof.
  intros Hwf%reachable_is_wf Hs.
  destruct (wf_lookup _ _ _ Hwf Hs) as (_ & Ha & Hm).
  split; [done |]. split; [done |]. split; intros v.
  - apply (Article_author_setter_spec _ _ _ _ _ _ Hs).
  - apply (Article_magazine_setter_spec _ _ _ _ _ _ Hs).
Qed.

Lemma Article_always_has_author_and_magazine_witness :
  reachable demo /\
  is_a CAuthor (heap demo) (VRef 1%nat) = true /\
  Article.author_setter 9%nat VNone demo = (Ok tt, demo).
Proof.
  assert (Hr : reachable demo) by (exists demo_calls; reflexivity).
  split; [exact Hr |].
  destruct (Article_always_has_author_and_magazine
              demo 9%nat (VStr "In Vogue now") (VRef 1%nat) (VRef 3%nat) Hr eq_refl)
    as (Ha & _ & Hset & _).
  split; [exact Ha | exact (Hset VNone)].
Defined.

(** C7. [Magazine(name, category)] succeeds exactly when [name] is a string
    of 2 to 16 characters and [category] a non-empty string, and then
    registers the new instance at the end of [Magazine._all]; it raises for
    a name of 1 or of 17 characters, and for a category that is not a
    non-empty string. *)
Theorem Magazine_construction_succeeds_iff_valid (s : state) (name category : value) :
  (str_between 2 16 name /\ nonempty_str category <->
   exists self s', Magazine.__init__ name category s = (Ok self, s')) /\
  (forall self s',
     Magazine.__init__ name category s = (Ok self, s') ->
     heap s' !! self = Some (MagazineObj name category) /\
     Magazine__all s' = Magazine__all s ++ [self]) /\
  (forall t,
     String.length t = 1%nat \/ String.length t = 17%nat ->
     exists e, Magazine.__init__ (VStr t) category s = (Raise e, s)) /\
  (~ nonempty_str category ->
   exists e, Magazine.__init__ name category s = (Raise e, s)).
Proof.
  split; [| split; [| split]].
  - destruct (Magazine_init_cases name category s)
      as [(Hn & Hc & ->) | [Hbad [e ->]]].
    + split; eauto.
    + split; [done | by intros (? & ? & ?)].
  - intros self s'.
    destruct (Magazine_init_cases name category s)
      as [(Hn & Hc & ->) | [Hbad [e ->]]]; [| done].
    intros [= <- <-]. simpl. split; [| done].
    by rewrite lookup_app_r, Nat.sub_diag by lia.
  - intros t Ht.
    destruct (Magazine_init_cases (VStr t) category s)
      as [((t' & [= <-] & Hlen) & _) | [_ He]]; [lia | done].
  - intros Hbad.
    destruct (Magazine_init_cases name category s)
      as [(_ & Hc & _) | [_ He]]; done.
Qed.

Lemma Magazine_construction_succeeds_iff_valid_witness :
  (exists self s', Magazine.__init__ (VStr "Tech") (VStr "Science") init = (Ok self, s')) /\
  (exists e, Magazine.__init__ (VStr "X") (VStr "Science") init = (Raise e, init)) /\
  (exists e, Magazine.__init__ (VStr "Tech") (VStr EmptyString) init = (Raise e, init)).
Proof.
  split; [| split].
  - apply (Magazine_construction_succeeds_iff_valid init (VStr "Tech") (VStr "Science")).
    split; [exists "Tech" | exists "Science"]; (split; [reflexivity | vm_compute]).
    + split; discriminate.
    + discriminate.
  - apply (Magazine_construction_succeeds_iff_valid init VNone (VStr "Science")).
    left. reflexivity.
  - apply (Magazine_construction_succeeds_iff_valid init (VStr "Tech") (VStr EmptyString)).
    intros (t & [= <-] & Hlen). by apply Hlen.
Defined.

(** C8. [Article(author, magazine, title)] succeeds exactly when [author] is
    an Author instance, [magazine] a Magazine instance and [title] a string
    of 5 to 50 characters, and then registers the new instance at the end
    of [Article.all]; with a title of 4 or of 51 characters it raises. *)
Theorem Article_construction_succeeds_iff_valid
    (s : state) (author magazine title : value) :
  (is_a CAuthor (heap s) author = true /\ is_a CMagazine (heap s) magazine = true /\
   str_between 5 50 title <->
   exists self s', Article.__init__ author magazine title s = (Ok self, s')) /\
  (forall self s',
     Article.__init__ author magazine title s = (Ok self, s') ->
     heap s' !! self = Some (ArticleObj title author magazine) /\
     Article_all s' = Article_all s ++ [self]) /\
  (forall t,
     String.length t = 4%nat \/ String.length t = 51%nat ->
     exists e, Article.__init__ author magazine (VStr t) s = (Raise e, s)) /\
  (is_a CAuthor (heap s) author = false \/ is_a CMagazine (heap s) magazine = false \/
   isinstance_str title = false ->
   exists e, Article.__init__ author magazine title s = (Raise e, s)).
Proof.
  split; [| split; [| split]].
  - destruct (Article_init_cases author magazine title s)
      as [(Ha & Hm & Ht & ->) | [Hbad [e ->]]].
    + split; eauto.
    + split; [done | by intros (? & ? & ?)].
  - intros self s'.
    destruct (Article_init_cases author magazine title s)
      as [(Ha & Hm & Ht & ->) | [Hbad [e ->]]]; [| done].
    intros [= <- <-]. simpl. split; [| done].
    by rewrite lookup_app_r, Nat.sub_diag by lia.
  - intros t Ht.
    destruct (Article_init_cases author magazine (VStr t) s)
      as [(_ & _ & (t' & [= <-] & Hlen) & _) | [_ He]]; [lia | done].
  - intros Hbad.
    destruct (Article_init_cases author magazine title s)
      as [(Ha & Hm & (t & -> & _) & _) | [_ He]]; [| done].
    simpl in Hbad. destruct Hbad as [? | [? | ?]]; congruence.
Qed.

Lemma Article_construction_succeeds_iff_valid_witness :
  (exists self s',
     Article.__init__ (VRef 0%nat) (VRef 2%nat) (VStr "Fresh") demo = (Ok self, s')) /\
  (exists e, Article.__init__ (VRef 0%nat) (VRef 2%nat) (VStr "Tiny") demo
             = (Raise e, demo)) /\
  (exists e, Article.__init__ (VRef 2%nat) (VRef 2%nat) (VStr "Fresh") demo
             = (Raise e, demo)).
Proof.
  split; [| split].
  - apply (Article_construction_succeeds_iff_valid
             demo (VRef 0%nat) (VRef 2%nat) (VStr "Fresh")).
    split; [reflexivity |]. split; [reflexivity |].
    exists "Fresh". split; [reflexivity | vm_compute]. split; discriminate.
  - apply (Article_construction_succeeds_iff_valid demo (VRef 0%nat) (VRef 2%nat) VNone).
    left. reflexivity.
  - apply (Article_construction_succeeds_iff_valid
             demo (VRef 2%nat) (VRef 2%nat) (VStr "Fresh")).
    left. reflexivity.
Defined.

(** C9. [Author(name)] with a non-empty string stores exactly that string:
    [author.name] reads it back, also after any further calls.  An
    assignment to [author.name] changes nothing, and so does an assignment
    to [article.title]: the title given at construction is read back after
    any further calls. *)
Theorem Author_name_and_Article_title_never_change :
  (forall s n,
     n <> EmptyString ->
     exists self s1,
       Author.__init__ (VStr n) s = (Ok self, s1) /\
       Author.name self s1 = (Ok (VStr n), s1) /\
       forall cs, Author.name self (exec cs s1) = (Ok (VStr n), exec cs s1)) /\
  (forall s self v, Author.name_setter self v s = (Ok tt, s)) /\
  (forall s self v, Article.title_setter self v s = (Ok tt, s)) /\
  (forall s author magazine title self s1,
     Article.__init__ author magazine title s = (Ok self, s1) ->
     forall cs, Article.title self (exec cs s1) = (Ok title, exec cs s1)).
Proof.
  split; [| split; [done | split; [done |]]].
  - intros s n Hn.
    destruct (Author_init_cases (VStr n) s) as [[_ Hok] | [Hbad _]].
    + assert (Hl : heap (append_Author (VStr n) s) !! length (heap s)
                   = Some (AuthorObj (VStr n))).
      { simpl. by rewrite lookup_app_r, Nat.sub_diag by lia. }
      eexists _, _. split; [exact Hok |].
      split; [unfold Author.name; by erewrite getattr_field |].
      intros cs. destruct (exec_frozen cs _ _ _ Hl) as ([] & Hl' & Hf); try done.
      simpl in Hf. subst. unfold Author.name. by erewrite getattr_field.
    + destruct Hbad. exists n. split; [done |]. by destruct n.
  - intros s author magazine title self s1.
    destruct (Article_init_cases author magazine title s)
      as [(Ha & Hm & Ht & ->) | [Hbad [e ->]]]; [| done].
    intros [= <- <-] cs.
    assert (Hl : heap (append_Article author magazine title s) !! length (heap s)
                 = Some (ArticleObj title author magazine)).
    { simpl. by rewrite lookup_app_r, Nat.sub_diag by lia. }
    destruct (exec_frozen cs _ _ _ Hl) as ([] & Hl' & Hf); try done.
    simpl in Hf. subst. unfold Article.title. by erewrite getattr_field.
Qed.

Lemma Author_name_and_Article_title_never_change_witness :
  exists self s1,
    Author.__init__ (VStr "Ada") init = (Ok self, s1) /\
    Author.name self s1 = (Ok (VStr "Ada"), s1) /\
    forall cs, Author.name self (exec cs s1) = (Ok (VStr "Ada"), exec cs s1).
Proof.
  apply (Author_name_and_Article_title_never_change). discriminate.
Defined.

(** C10. The eight queries write nothing: the store after the call, that is
    both registries and every attribute of every instance, is the store
    before it. *)
Theorem queries_leave_the_store_unchanged (s : state) (self : addr) :
  (Author.articles self s).2 = s /\
  (Author.magazines self s).2 = s /\
  (Author.topic_areas self s).2 = s /\
  (Magazine.articles self s).2 = s /\
  (Magazine.contributors self s).2 = s /\
  (Magazine.article_titles self s).2 = s /\
  (Magazine.contributing_authors self s).2 = s /\
  (Magazine.top_publisher s).2 = s.
Proof.
  repeat split.
  - apply readonly_Author_articles.
  - apply readonly_Author_magazines.
  - apply readonly_Author_topic_areas.
  - apply readonly_Magazine_articles.
  - apply readonly_Magazine_contributors.
  - apply readonly_Magazine_article_titles.
  - apply readonly_Magazine_contributing_authors.
  - apply readonly_Magazine_top_publisher.
Qed.

(** * Further properties of the code *)

(** ** What a call can do *)

Lemma run_step c s : step s (run c s).2.
Proof.
  assert (Hro : forall m : M unit, readonly m -> step s (m s).2).
  { intros m Hm. rewrite Hm. constructor. }
  destruct c as [name | self | self v | self | self | self magazine title | self
                | name category | self | self v | self | self v | self | self
                | self | self | | author magazine title | self | self v | self
                | self v | self | self v];
    simpl; try (apply Hro; auto 10 with readonly; fail).
  - rewrite void_snd.
    destruct (Author_init_cases name s) as [[? ->] | [_ [e ->]]]; simpl;
      by constructor.
  - apply Hro. apply readonly_method. intros ?. apply readonly_ret.
  - rewrite void_snd.
    destruct (method_cases CAuthor self
                (fun self => Author.add_article self magazine title) s)
      as [[_ ->] | [_ ->]]; [| constructor].
    unfold Author.add_article.
    destruct (Article_init_cases (VRef self) magazine title s)
      as [(? & ? & ? & ->) | [_ [e ->]]]; simpl; by constructor.
  - rewrite void_snd.
    destruct (Magazine_init_cases name category s) as [(? & ? & ->) | [_ [e ->]]];
      simpl; by constructor.
  - destruct (method_cases CMagazine self
                (fun self => Magazine.name_setter self v) s)
      as [[Hc ->] | [_ ->]]; [| constructor].
    apply is_a_lookup in Hc as ([] & Hs & Hc); try done.
    rewrite (Magazine_name_setter_spec _ _ _ _ _ Hs).
    case_decide; simpl; [by econstructor | constructor].
  - destruct (method_cases CMagazine self
                (fun self => Magazine.category_setter self v) s)
      as [[Hc ->] | [_ ->]]; [| constructor].
    apply is_a_lookup in Hc as ([] & Hs & Hc); try done.
    rewrite (Magazine_category_setter_spec _ _ _ _ _ Hs).
    case_decide; simpl; [by econstructor | constructor].
  - rewrite void_snd.
    destruct (Article_init_cases author magazine title s)
      as [(? & ? & ? & ->) | [_ [e ->]]]; simpl; by constructor.
  - apply Hro. apply readonly_method. intros ?. apply readonly_ret.
  - destruct (method_cases CArticle self
                (fun self => Article.author_setter self v) s)
      as [[Hc ->] | [_ ->]]; [| constructor].
    apply is_a_lookup in Hc as ([] & Hs & Hc); try done.
    rewrite (Article_author_setter_spec _ _ _ _ _ _ Hs).
    destruct (is_a CAuthor (heap s) v) eqn:Hv; simpl; [by econstructor | constructor].
  - destruct (method_cases CArticle self
                (fun self => Article.magazine_setter self v) s)
      as [[Hc ->] | [_ ->]]; [| constructor].
    apply is_a_lookup in Hc as ([] & Hs & Hc); try done.
    rewrite (Article_magazine_setter_spec _ _ _ _ _ _ Hs).
    destruct (is_a CMagazine (heap s) v) eqn:Hv; simpl; [by econstructor | constructor].
Qed.

Lemma step_registries s s' :
  step s s' ->
  Article_all s `prefix_of` Article_all s' /\
  Magazine__all s `prefix_of` Magazine__all s'.
Proof.
  destruct 1; simpl; split; try done; by apply prefix_app_r.
Qed.

Lemma step_attrs_valid s s' :
  step s s' -> Forall attrs_valid (heap s) -> Forall attrs_valid (heap s').
Proof.
  destruct 1; simpl; intros Hv; try done;
    try (apply Forall_app; split; [done |]; by repeat constructor).
  - pose proof (Forall_lookup_1 _ _ _ _ Hv H) as [_ ?].
    apply Forall_insert; [done | by split].
  - pose proof (Forall_lookup_1 _ _ _ _ Hv H) as [? _].
    apply Forall_insert; [done | by split].
  - pose proof (Forall_lookup_1 _ _ _ _ Hv H) as Ht.
    by apply Forall_insert.
  - pose proof (Forall_lookup_1 _ _ _ _ Hv H) as Ht.
    by apply Forall_insert.
Qed.

Lemma exec_steps (P : state -> Prop) cs s :
  (forall s s', step s s' -> P s -> P s') -> P s -> P (exec cs s).
Proof.
  intros Hstep. revert s. induction cs as [|c cs IH]; intros s Hs; simpl; [done |].
  apply IH. eapply Hstep; [apply run_step | done].
Qed.

(** ** First occurrences *)

Lemma elem_of_first_seen x l : x ∈ first_seen l <-> x ∈ l.
Proof.
  induction l as [|y l IH]; simpl; [done |].
  rewrite !elem_of_cons, list_elem_of_filter, IH.
  destruct (decide (x = y)); tauto.
Qed.

Lemma NoDup_first_seen l : NoDup (first_seen l).
Proof.
  induction l as [|y l IH]; simpl; constructor.
  - rewrite list_elem_of_filter. tauto.
  - by apply NoDup_filter.
Qed.

Lemma first_seen_sublist l : first_seen l `sublist_of` l.
Proof.
  induction l as [|y l IH]; simpl; [done |].
  apply sublist_skip. etrans; [apply sublist_filter | done].
Qed.

Lemma first_seen_filter (P : value -> Prop) `{!forall x, Decision (P x)} l :
  first_seen (filter P l) = filter P (first_seen l).
Proof.
  induction l as [|y l IH]; simpl; [done |].
  rewrite !filter_cons. destruct (decide (P y)) as [Hy | Hy]; simpl.
  - rewrite IH, !list_filter_filter. f_equal. apply list_filter_iff. tauto.
  - rewrite IH, list_filter_filter. apply list_filter_iff.
    intros x. split; [| tauto]. intros Hx. split; [done | congruence].
Qed.

Lemma foldl_dedup_step acc l :
  foldl dedup_step acc l = acc ++ first_seen (filter (fun x => x ∉ acc) l).
Proof.
  revert acc. induction l as [|y l IH]; intros acc; simpl.
  - by rewrite app_nil_r.
  - rewrite IH, filter_cons. unfold dedup_step, py_in.
    case_bool_decide as Hy.
    + by rewrite decide_False by tauto.
    + rewrite decide_True by done. simpl. rewrite <- app_assoc. simpl.
      do 2 f_equal. rewrite <- first_seen_filter, list_filter_filter.
      f_equal. apply list_filter_iff. intros x.
      rewrite not_elem_of_app, list_elem_of_singleton. tauto.
Qed.

Lemma foldl_dedup_step_nil l : foldl dedup_step [] l = first_seen l.
Proof.
  rewrite foldl_dedup_step. simpl. f_equal.
  induction l as [|y l IH]; [done |].
  rewrite filter_cons_True by apply not_elem_of_nil. by rewrite IH.
Qed.

(** The keys of a counter come in the order the deduplicating loop gives. *)
Lemma tally_keys {A} (key : A -> value) d l :
  (tally key d l).*1 = foldl dedup_step d.*1 (key <$> l).
Proof.
  revert d. induction l as [|a l IH]; intros d; simpl; [done |].
  unfold tally in *. rewrite IH, dict_set_keys. f_equal.
  unfold dedup_step, py_in. by case_decide; case_bool_decide.
Qed.

(** ** The remaining queries on a well-formed store *)

Lemma mapM_pure {A B} (f : A -> M B) (g : A -> B) (l : list A) s :
  (forall a, a ∈ l -> f a s = (Ok (g a), s)) ->
  mapM f l s = (Ok (g <$> l), s).
Proof.
  induction l as [|x l IH]; intros Hf; simpl; [done |].
  unfold bind. rewrite Hf by left.
  by rewrite IH by (intros a Ha; apply Hf; by right).
Qed.

Lemma articles_by_registered s self a : a ∈ articles_by s self -> a ∈ Article_all s.
Proof. by intros [_ ?]%list_elem_of_filter. Qed.

Lemma articles_in_registered s self a : a ∈ articles_in s self -> a ∈ Article_all s.
Proof. by intros [_ ?]%list_elem_of_filter. Qed.

Lemma Article_title_wf s a :
  wf s -> a ∈ Article_all s -> Article.title a s = (Ok (field s a _title), s).
Proof.
  intros Hwf Ha.
  destruct (wf_registered_article _ _ Hwf Ha) as (t & au & m & Ho & _).
  unfold Article.title, field.
  rewrite (getattr_field s a _title _ (VStr t) Ho eq_refl). by rewrite Ho.
Qed.

Lemma Author_magazines_wf s self :
  wf s ->
  Author.magazines self s =
  (Ok (first_seen ((fun a => field s a _magazine) <$> articles_by s self)), s).
Proof.
  intros Hwf. unfold Author.magazines, bind.
  rewrite (Author_articles_wf _ _ Hwf). fold (articles_by s self).
  erewrite (foldM_pure _ (fun mags a => dedup_step mags (field s a _magazine))).
  - by rewrite <- foldl_fmap, foldl_dedup_step_nil.
  - intros mags a Ha%articles_by_registered. unfold bind.
    by rewrite (Article_magazine_wf _ _ Hwf Ha).
Qed.

Lemma Magazine_contributors_wf s self :
  wf s ->
  Magazine.contributors self s =
  (Ok (first_seen ((fun a => field s a _author) <$> articles_in s self)), s).
Proof.
  intros Hwf. unfold Magazine.contributors, bind.
  rewrite (Magazine_articles_wf _ _ Hwf). fold (articles_in s self).
  erewrite (foldM_pure _ (fun authors a => dedup_step authors (field s a _author))).
  - by rewrite <- foldl_fmap, foldl_dedup_step_nil.
  - intros authors a Ha%articles_in_registered. unfold bind.
    by rewrite (Article_author_wf _ _ Hwf Ha).
Qed.

Lemma Magazine_article_titles_wf s self :
  wf s ->
  Magazine.article_titles self s =
  (Ok (match articles_in s self with
       | [] => None
       | arts => Some ((fun a => field s a _title) <$> arts)
       end), s).
Proof.
  intros Hwf. unfold Magazine.article_titles, bind.
  rewrite (Magazine_articles_wf _ _ Hwf). fold (articles_in s self).
  pose proof (articles_in_registered s self) as Hreg.
  destruct (articles_in s self) as [|a0 arts]; [done |].
  erewrite (mapM_pure _ (fun a => field s a _title)); [done |].
  intros a Ha. by apply Article_title_wf, Hreg.
Qed.

(** The magazine a registered article refers to. *)
Lemma registered_magazine s a :
  wf s -> a ∈ Article_all s ->
  exists m n c, field s a _magazine = VRef m /\ heap s !! m = Some (MagazineObj n c).
Proof.
  intros Hwf Ha.
  destruct (wf_registered_article _ _ Hwf Ha) as (t & au & m & Ho & _ & Hm).
  destruct (heap s !! m) as [[| n c |]|] eqn:Em; try done.
  exists m, n, c. split; [| done]. unfold field. by rewrite Ho.
Qed.

Lemma registered_author s a :
  wf s -> a ∈ Article_all s ->
  exists au n, field s a _author = VRef au /\ heap s !! au = Some (AuthorObj n).
Proof.
  intros Hwf Ha.
  destruct (wf_registered_article _ _ Hwf Ha) as (t & au & m & Ho & Hau & _).
  destruct (heap s !! au) as [[n | |]|] eqn:Em; try done.
  exists au, n. split; [| done]. unfold field. by rewrite Ho.
Qed.

Lemma Author_topic_areas_wf s self :
  wf s ->
  Author.topic_areas self s =
  (Ok (match first_seen ((fun a => field s a _magazine) <$> articles_by s self) with
       | [] => None
       | mags => Some (first_seen (category_of s <$> mags))
       end), s).
Proof.
  intros Hwf. unfold Author.topic_areas, bind.
  rewrite (Author_magazines_wf _ _ Hwf).
  assert (Hmags : forall m,
            m ∈ first_seen ((fun a => field s a _magazine) <$> articles_by s self) ->
            on_instance m Magazine.category s = (Ok (category_of s m), s)).
  { intros m (a & -> & Ha%articles_by_registered)%elem_of_first_seen%list_elem_of_fmap.
    destruct (registered_magazine _ _ Hwf Ha) as (x & n & c & -> & Hx).
    simpl. unfold Magazine.category, field.
    rewrite (getattr_field s x _category _ c Hx eq_refl). by rewrite Hx. }
  destruct (first_seen _) as [|m0 mags]; [done |].
  erewrite (foldM_pure _ (fun cats m => dedup_step cats (category_of s m))).
  - by rewrite <- foldl_fmap, foldl_dedup_step_nil.
  - intros cats m Hm. unfold bind. by rewrite (Hmags m Hm).
Qed.

Lemma reachable_attrs_valid s : reachable s -> Forall attrs_valid (heap s).
Proof.
  intros [cs ->]. apply (exec_steps (fun s => Forall attrs_valid (heap s))).
  - apply step_attrs_valid.
  - constructor.
Qed.

Lemma elem_of_articles_by s self a :
  wf s ->
  a ∈ articles_by s self <->
  a ∈ Article_all s /\ exists t m, heap s !! a = Some (ArticleObj t (VRef self) m).
Proof.
  intros Hwf. unfold articles_by. rewrite list_elem_of_filter. split.
  - intros [Hf Ha]. split; [done |]. by apply field_author_registered.
  - intros [Ha Hf]. split; [| done]. by apply field_author_registered.
Qed.

Lemma elem_of_articles_in s self a :
  wf s ->
  a ∈ articles_in s self <->
  a ∈ Article_all s /\ exists t au, heap s !! a = Some (ArticleObj t au (VRef self)).
Proof.
  intros Hwf. unfold articles_in. rewrite list_elem_of_filter. split.
  - intros [Hf Ha]. split; [done |]. by apply field_magazine_registered.
  - intros [Ha Hf]. split; [| done]. by apply field_magazine_registered.
Qed.

Lemma field_lookup s a o f :
  heap s !! a = Some o -> field s a f = default VNone (get_field o f).
Proof. intros Ha. unfold field. by rewrite Ha. Qed.

(** X2. [author.magazines()] lists the magazines of the author's articles,
    each once, in the order in which [author.articles()] first meets them;
    all of them are Magazine instances. *)
Theorem Author_magazines_each_once_first_seen (s : state) (self : addr) :
  reachable s ->
  exists arts l,
    Author.articles self s = (Ok arts, s) /\
    Author.magazines self s = (Ok l, s) /\
    l = first_seen ((fun a => field s a _magazine) <$> arts) /\
    NoDup l /\
    (forall v, v ∈ l <->
               exists a t, a ∈ Article_all s /\
                           heap s !! a = Some (ArticleObj t (VRef self) v)) /\
    (forall v, v ∈ l -> is_a CMagazine (heap s) v = true).
Proof.
  intros Hwf%reachable_is_wf. eexists _, _.
  split; [by apply Author_articles_wf |].
  split; [by apply Author_magazines_wf |].
  split; [done |]. split; [apply NoDup_first_seen |].
  fold (articles_by s self). split.
  - intros v. rewrite elem_of_first_seen, list_elem_of_fmap. split.
    + intros (a & -> & [Ha (t & m & Ho)]%elem_of_articles_by); [| done].
      exists a, t. split; [done |]. by rewrite (field_lookup _ _ _ _ Ho).
    + intros (a & t & Ha & Ho). exists a.
      split; [by rewrite (field_lookup _ _ _ _ Ho) |].
      apply elem_of_articles_by; eauto.
  - intros v (a & -> & Ha%articles_by_registered)%elem_of_first_seen%list_elem_of_fmap.
    destruct (registered_magazine _ _ Hwf Ha) as (m & n & c & -> & Hm).
    simpl. by rewrite Hm.
Qed.

Lemma Author_magazines_each_once_first_seen_witness :
  reachable demo /\
  exists l, Author.magazines 1%nat demo = (Ok l, demo) /\ NoDup l.
Proof.
  assert (Hr : reachable demo) by (exists demo_calls; reflexivity).
  split; [exact Hr |].
  destruct (Author_magazines_each_once_first_seen demo 1%nat Hr)
    as (arts & l & _ & Hrun & _ & Hnd & _).
  exists l. auto.
Defined.

(** X3. [author.topic_areas()] is [None] exactly when [author.magazines()]
    is empty; otherwise it lists the categories of those magazines, each
    once, in the order of the magazines, and every entry is a non-empty
    string. *)
Theorem Author_topic_areas_categories_of_magazines (s : state) (self : addr) :
  reachable s ->
  exists mags r,
    Author.magazines self s = (Ok mags, s) /\
    Author.topic_areas self s = (Ok r, s) /\
    (mags = [] <-> r = None) /\
    (forall cats, r = Some cats ->
       cats = first_seen (category_of s <$> mags) /\
       cats <> [] /\ NoDup cats /\
       (forall c, c ∈ cats <->
                  exists m n, VRef m ∈ mags /\ heap s !! m = Some (MagazineObj n c)) /\
       (forall c, c ∈ cats -> nonempty_str c)).
Proof.
  intros Hr. pose proof (reachable_is_wf _ Hr) as Hwf.
  pose proof (reachable_attrs_valid _ Hr) as Hval.
  eexists _, _.
  split; [by apply Author_magazines_wf |].
  split; [by apply Author_topic_areas_wf |].
  assert (Hmags : forall v,
            v ∈ first_seen ((fun a => field s a _magazine) <$> articles_by s self) ->
            exists m n c, v = VRef m /\ heap s !! m = Some (MagazineObj n c)).
  { intros v (a & -> & Ha%articles_by_registered)%elem_of_first_seen%list_elem_of_fmap.
    destruct (registered_magazine _ _ Hwf Ha) as (m & n & c & -> & Hm). eauto. }
  destruct (first_seen _) as [|m0 mags] eqn:Emags.
  { split; [done |]. by intros cats. }
  split; [done |]. intros cats [= <-].
  assert (Hcat : forall c,
            c ∈ first_seen (category_of s <$> m0 :: mags) <->
            exists m n, VRef m ∈ m0 :: mags /\ heap s !! m = Some (MagazineObj n c)).
  { intros c. rewrite elem_of_first_seen, list_elem_of_fmap. split.
    - intros (v & -> & Hv). destruct (Hmags v Hv) as (m & n & c & -> & Hm).
      exists m, n. split; [done |]. simpl. by rewrite (field_lookup _ _ _ _ Hm).
    - intros (m & n & Hin & Hm). exists (VRef m). split; [| done].
      simpl. by rewrite (field_lookup _ _ _ _ Hm). }
  split; [done |]. split; [done |].
  split; [exact (NoDup_first_seen (category_of s <$> m0 :: mags)) |].
  split; [done |].
  intros c (m & n & _ & Hm)%Hcat.
  by destruct (Forall_lookup_1 _ _ _ _ Hval Hm).
Qed.

Lemma Author_topic_areas_categories_of_magazines_witness :
  reachable demo /\
  exists r, Author.topic_areas 1%nat demo = (Ok r, demo) /\
            forall cats, r = Some cats -> NoDup cats.
Proof.
  assert (Hr : reachable demo) by (exists demo_calls; reflexivity).
  split; [exact Hr |].
  destruct (Author_topic_areas_categories_of_magazines demo 1%nat Hr)
    as (mags & r & _ & Hrun & _ & Hcats).
  exists r. split; [exact Hrun |]. intros cats Hc. apply (Hcats cats Hc).
Defined.

(** X4. [magazine.articles()] returns exactly the articles of [Article.all]
    whose magazine is this very instance, in the order of the registry,
    each once; their number is the count [top_publisher] compares. *)
Theorem Magazine_articles_exact_in_registry_order (s : state) (self : addr) :
  reachable s ->
  exists l,
    Magazine.articles self s = (Ok l, s) /\
    l `sublist_of` Article_all s /\
    NoDup l /\
    (forall a, a ∈ l <->
               a ∈ Article_all s /\
               exists t au, heap s !! a = Some (ArticleObj t au (VRef self))) /\
    Z.of_nat (length l) = article_count s self.
Proof.
  intros Hwf%reachable_is_wf. eexists.
  split; [by apply Magazine_articles_wf |].
  split; [apply sublist_filter |].
  split.
  { apply NoDup_filter. rewrite (wf_articles _ Hwf). apply NoDup_instances_from. }
  split; [| done].
  intros a. by apply elem_of_articles_in.
Qed.

Lemma Magazine_articles_exact_in_registry_order_witness :
  reachable demo /\
  exists l, Magazine.articles 3%nat demo = (Ok l, demo) /\
            Z.of_nat (length l) = article_count demo 3%nat.
Proof.
  assert (Hr : reachable demo) by (exists demo_calls; reflexivity).
  split; [exact Hr |].
  destruct (Magazine_articles_exact_in_registry_order demo 3%nat Hr)
    as (l & Hrun & _ & _ & _ & Hlen).
  exists l. auto.
Defined.

(** X5. [magazine.contributors()] lists the authors of the magazine's
    articles, each once, in the order in which [magazine.articles()] first
    meets them; all of them are Author instances. *)
Theorem Magazine_contributors_each_once_first_seen (s : state) (self : addr) :
  reachable s ->
  exists arts l,
    Magazine.articles self s = (Ok arts, s) /\
    Magazine.contributors self s = (Ok l, s) /\
    l = first_seen ((fun a => field s a _author) <$> arts) /\
    NoDup l /\
    (forall v, v ∈ l <->
               exists a t, a ∈ Article_all s /\
                           heap s !! a = Some (ArticleObj t v (VRef self))) /\
    (forall v, v ∈ l -> is_a CAuthor (heap s) v = true).
Proof.
  intros Hwf%reachable_is_wf. eexists _, _.
  split; [by apply Magazine_articles_wf |].
  split; [by apply Magazine_contributors_wf |].
  split; [done |]. split; [apply NoDup_first_seen |].
  fold (articles_in s self). split.
  - intros v. rewrite elem_of_first_seen, list_elem_of_fmap. split.
    + intros (a & -> & [Ha (t & au & Ho)]%elem_of_articles_in); [| done].
      exists a, t. split; [done |]. by rewrite (field_lookup _ _ _ _ Ho).
    + intros (a & t & Ha & Ho). exists a.
      split; [by rewrite (field_lookup _ _ _ _ Ho) |].
      apply elem_of_articles_in; eauto.
  - intros v (a & -> & Ha%articles_in_registered)%elem_of_first_seen%list_elem_of_fmap.
    destruct (registered_author _ _ Hwf Ha) as (au & n & -> & Hau).
    simpl. by rewrite Hau.
Qed.

Lemma Magazine_contributors_each_once_first_seen_witness :
  reachable demo /\
  exists l, Magazine.contributors 2%nat demo = (Ok l, demo) /\ NoDup l.
Proof.
  assert (Hr : reachable demo) by (exists demo_calls; reflexivity).
  split; [exact Hr |].
  destruct (Magazine_contributors_each_once_first_seen demo 2%nat Hr)
    as (arts & l & _ & Hrun & _ & Hnd & _).
  exists l. auto.
Defined.

Lemma filter_ext_elem {A} (P Q : A -> Prop)
    `{!forall x, Decision (P x), !forall x, Decision (Q x)} (l : list A) :
  (forall x, x ∈ l -> P x <-> Q x) -> filter P l = filter Q l.
Proof.
  induction l as [|x l IH]; intros Hext; [done |].
  rewrite !filter_cons, IH by (intros y Hy; apply Hext; by right).
  pose proof (Hext x (list_elem_of_here _ _)).
  by destruct (decide (P x)), (decide (Q x)); try tauto.
Qed.

(** The comprehension over [counts.items()] is a filter on the keys. *)
Lemma filter_items_keys (d : dict) :
  NoDup d.*1 ->
  (filter (fun '(_, cnt) => cnt > 2) (dict_items d)).*1 =
  filter (fun k => 2 < dict_get d k 0) d.*1.
Proof.
  unfold dict_items. induction d as [|[k c] d IH]; intros Hnd; [done |].
  rewrite fmap_cons in Hnd. apply NoDup_cons in Hnd as [Hk Hnd]. simpl in Hk.
  rewrite fmap_cons, !filter_cons. cbn [fst].
  assert (Hhd : dict_get ((k, c) :: d) k 0 = c)
    by (simpl; by rewrite bool_decide_eq_true_2).
  assert (Htl : filter (fun k0 => 2 < dict_get ((k, c) :: d) k0 0) d.*1 =
                filter (fun k0 => 2 < dict_get d k0 0) d.*1).
  { apply filter_ext_elem. intros x Hx. simpl.
    rewrite bool_decide_eq_false_2; [done | congruence]. }
  rewrite Htl, <- IH, Hhd by done.
  destruct (decide (c > 2)), (decide (2 < c)); try lia; done.
Qed.

Lemma appearances_filter s self v :
  appearances s self v =
  Z.of_nat (length (filter (fun a => field s a _author = v) (articles_in s self))).
Proof.
  unfold appearances, articles_in. rewrite list_filter_filter.
  do 2 f_equal. apply list_filter_iff. tauto.
Qed.

(** X6. [magazine.article_titles()] is [None] exactly when
    [magazine.articles()] is empty; otherwise it is the list of the titles
    of those articles, one per article and in the same order, each a
    string of 5 to 50 characters. *)
Theorem Magazine_article_titles_follow_articles (s : state) (self : addr) :
  reachable s ->
  exists arts r,
    Magazine.articles self s = (Ok arts, s) /\
    Magazine.article_titles self s = (Ok r, s) /\
    (arts = [] <-> r = None) /\
    (forall ts, r = Some ts ->
       Forall2 (fun a t => exists au m, heap s !! a = Some (ArticleObj t au m)) arts ts /\
       Forall (str_between 5 50) ts).
Proof.
  intros Hr. pose proof (reachable_is_wf _ Hr) as Hwf.
  pose proof (reachable_attrs_valid _ Hr) as Hval.
  eexists _, _.
  split; [by apply Magazine_articles_wf |].
  split; [by apply Magazine_article_titles_wf |].
  fold (articles_in s self).
  pose proof (articles_in_registered s self) as Hreg.
  destruct (articles_in s self) as [|a0 arts]; [by split |].
  split; [done |]. intros ts [= <-].
  assert (Hall : Forall (fun a => exists au m,
                   heap s !! a = Some (ArticleObj (field s a _title) au m))
                 (a0 :: arts)).
  { apply Forall_forall. intros a Ha%Hreg.
    destruct (wf_registered_article _ _ Hwf Ha) as (t & au & m & Ho & _).
    rewrite (field_lookup _ _ _ _ Ho). simpl. eauto. }
  split.
  - change (Forall2 (fun a t => exists au m, heap s !! a = Some (ArticleObj t au m))
              (a0 :: arts) ((fun a => field s a _title) <$> a0 :: arts)).
    apply Forall2_fmap_r. by apply Forall_Forall2_diag.
  - change (Forall (str_between 5 50) ((fun a => field s a _title) <$> a0 :: arts)).
    apply Forall_fmap. eapply Forall_impl; [exact Hall |].
    intros a (au & m & Ho). simpl.
    exact (Forall_lookup_1 _ _ _ _ Hval Ho).
Qed.

Lemma Magazine_article_titles_follow_articles_witness :
  reachable demo /\
  exists r, Magazine.article_titles 3%nat demo = (Ok r, demo) /\
            forall ts, r = Some ts -> Forall (str_between 5 50) ts.
Proof.
  assert (Hr : reachable demo) by (exists demo_calls; reflexivity).
  split; [exact Hr |].
  destruct (Magazine_article_titles_follow_articles demo 3%nat Hr)
    as (arts & r & _ & Hrun & _ & Hts).
  exists r. split; [exact Hrun |]. intros ts Hsome. apply (Hts ts Hsome).
Defined.

Lemma contributing_authors_as_filter s self :
  wf s ->
  Magazine.contributing_authors self s =
  (Ok (match filter (fun v => 2 < appearances s self v)
               (first_seen ((fun a => field s a _author) <$> articles_in s self)) with
       | [] => None
       | l => Some l
       end), s).
Proof.
  intros Hwf. rewrite (contributing_authors_wf _ _ Hwf).
  fold (articles_in s self).
  assert (Hkeys : forall arts,
            arts = articles_in s self ->
            (filter (fun '(_, cnt) => cnt > 2)
               (dict_items (tally (fun a => field s a _author) [] arts))).*1 =
            filter (fun v => 2 < appearances s self v)
                   (first_seen ((fun a => field s a _author) <$> arts))).
  { intros arts ->.
    rewrite filter_items_keys by apply (tally_NoDup _ []), NoDup_nil_2.
    rewrite tally_keys. simpl. rewrite foldl_dedup_step_nil.
    apply list_filter_iff. intros v.
    rewrite tally_get, appearances_filter. simpl. lia. }
  destruct (articles_in s self) as [|a0 arts] eqn:Earts; [done |].
  by rewrite (Hkeys _ eq_refl).
Qed.

(** X7. [magazine.contributing_authors()] is [magazine.contributors()]
    restricted to the authors with more than 2 of the magazine's articles,
    in the same order, and [None] when nobody is left. *)
Theorem contributing_authors_filter_contributors (s : state) (self : addr) :
  reachable s ->
  exists cs r,
    Magazine.contributors self s = (Ok cs, s) /\
    Magazine.contributing_authors self s = (Ok r, s) /\
    r = match filter (fun v => 2 < appearances s self v) cs with
        | [] => None
        | l => Some l
        end.
Proof.
  intros Hwf%reachable_is_wf. eexists _, _.
  split; [by apply Magazine_contributors_wf |].
  split; [by apply contributing_authors_as_filter | done].
Qed.

Lemma contributing_authors_filter_contributors_witness :
  reachable demo /\
  exists cs r,
    Magazine.contributors 2%nat demo = (Ok cs, demo) /\
    Magazine.contributing_authors 2%nat demo = (Ok r, demo) /\
    r = match filter (fun v => 2 < appearances demo 2%nat v) cs with
        | [] => None
        | l => Some l
        end.
Proof.
  assert (Hr : reachable demo) by (exists demo_calls; reflexivity).
  split; [exact Hr |].
  exact (contributing_authors_filter_contributors demo 2%nat Hr).
Defined.

(** X8. The relation is the same seen from both sides: a magazine is
    among [author.magazines()] exactly when the author is among
    [magazine.contributors()]. *)
Theorem magazines_and_contributors_agree (s : state) (a m : addr) :
  reachable s ->
  exists mags cs,
    Author.magazines a s = (Ok mags, s) /\
    Magazine.contributors m s = (Ok cs, s) /\
    (VRef m ∈ mags <-> VRef a ∈ cs).
Proof.
  intros Hwf%reachable_is_wf. eexists _, _.
  split; [by apply Author_magazines_wf |].
  split; [by apply Magazine_contributors_wf |].
  rewrite !elem_of_first_seen, !list_elem_of_fmap.
  unfold articles_by, articles_in. split.
  - intros (x & Hm & [Ha Hx]%list_elem_of_filter). exists x.
    split; [done |]. apply list_elem_of_filter. by split.
  - intros (x & Ha & [Hm Hx]%list_elem_of_filter). exists x.
    split; [done |]. apply list_elem_of_filter. by split.
Qed.

Lemma magazines_and_contributors_agree_witness :
  reachable demo /\
  exists mags cs,
    Author.magazines 1%nat demo = (Ok mags, demo) /\
    Magazine.contributors 3%nat demo = (Ok cs, demo) /\
    (VRef 3%nat ∈ mags <-> VRef 1%nat ∈ cs).
Proof.
  assert (Hr : reachable demo) by (exists demo_calls; reflexivity).
  split; [exact Hr |].
  exact (magazines_and_contributors_agree demo 1%nat 3%nat Hr).
Defined.

(** X1. [Author(name)] succeeds exactly when [name] is a non-empty string.
    The new instance has a fresh identity and carries [name]; both
    registries and every earlier instance stay as they were.  Any other
    [name] raises. *)
Theorem Author_construction_succeeds_iff_nonempty_string (s : state) (name : value) :
  (nonempty_str name <-> exists self s', Author.__init__ name s = (Ok self, s')) /\
  (forall self s',
     Author.__init__ name s = (Ok self, s') ->
     heap s !! self = None /\
     heap s' !! self = Some (AuthorObj name) /\
     Article_all s' = Article_all s /\ Magazine__all s' = Magazine__all s /\
     forall a o, heap s !! a = Some o -> heap s' !! a = Some o) /\
  (~ nonempty_str name -> exists e, Author.__init__ name s = (Raise e, s)).
Proof.
  destruct (Author_init_cases name s) as [[Hn Hok] | [Hbad [e He]]].
  - split; [split; eauto |]. split; [| done].
    intros self s'. rewrite Hok. intros [= <- <-]. simpl.
    split; [by apply lookup_ge_None_2 |].
    split; [by rewrite lookup_app_r, Nat.sub_diag by lia |].
    split; [done |]. split; [done |].
    intros a o Ha. by apply lookup_app_l_Some.
  - split; [split; [done | intros (? & ? & ?); congruence] |].
    split; [intros ? ?; congruence | eauto].
Qed.

Lemma Author_construction_succeeds_iff_nonempty_string_witness :
  (exists self s', Author.__init__ (VStr "Ada") demo = (Ok self, s')) /\
  (exists e, Author.__init__ (VInt 7) demo = (Raise e, demo)).
Proof.
  split.
  - apply (Author_construction_succeeds_iff_nonempty_string demo (VStr "Ada")).
    exists "Ada". split; [reflexivity | discriminate].
  - apply (Author_construction_succeeds_iff_nonempty_string demo (VInt 7)).
    intros (t & Ht & _). discriminate Ht.
Defined.

Lemma frozen_class o o' : frozen o o' -> class_of o' = class_of o.
Proof. by destruct o, o'. Qed.

(** X9. Nothing is ever removed or replaced by another kind of instance:
    through any sequence of calls both registries only grow at the end,
    and every instance stays at its address with its class. *)
Theorem instances_are_never_removed (cs : list call) (s : state) :
  Article_all s `prefix_of` Article_all (exec cs s) /\
  Magazine__all s `prefix_of` Magazine__all (exec cs s) /\
  (forall a o, heap s !! a = Some o ->
               exists o', heap (exec cs s) !! a = Some o' /\ class_of o' = class_of o).
Proof.
  pose proof (exec_steps
    (fun s' => Article_all s `prefix_of` Article_all s' /\
               Magazine__all s `prefix_of` Magazine__all s') cs s) as Hpre.
  simpl in Hpre. destruct Hpre as [Ha Hm].
  - intros s1 s2 [H1 H2]%step_registries [? ?]. split; by etrans.
  - done.
  - split; [done |]. split; [done |].
    intros a o Ho. destruct (exec_frozen cs _ _ _ Ho) as (o' & Ho' & Hf).
    eauto using frozen_class.
Qed.

(** X10. In every store a client can build, the attributes keep the shape
    the constructors and setters check: an Author's name is a non-empty
    string; a Magazine's name is a string of 2 to 16 characters and its
    category a non-empty string; an Article's title is a string of 5 to 50
    characters.  The accessors return these attributes. *)
Theorem attributes_stay_valid (s : state) :
  reachable s ->
  (forall a n, heap s !! a = Some (AuthorObj n) ->
               Author.name a s = (Ok n, s) /\ nonempty_str n) /\
  (forall a n c, heap s !! a = Some (MagazineObj n c) ->
                 Magazine.name a s = (Ok n, s) /\ Magazine.category a s = (Ok c, s) /\
                 str_between 2 16 n /\ nonempty_str c) /\
  (forall a t au m, heap s !! a = Some (ArticleObj t au m) ->
                    Article.title a s = (Ok t, s) /\ Article.author a s = (Ok au, s) /\
                    Article.magazine a s = (Ok m, s) /\ str_between 5 50 t).
Proof.
  intros Hval%reachable_attrs_valid. split; [| split].
  - intros a n Ho. split; [by apply (getattr_field s a _name _ n Ho) |].
    exact (Forall_lookup_1 _ _ _ _ Hval Ho).
  - intros a n c Ho.
    split; [by apply (getattr_field s a _name _ n Ho) |].
    split; [by apply (getattr_field s a _category _ c Ho) |].
    exact (Forall_lookup_1 _ _ _ _ Hval Ho).
  - intros a t au m Ho.
    split; [by apply (getattr_field s a _title _ t Ho) |].
    split; [by apply (getattr_field s a _author _ au Ho) |].
    split; [by apply (getattr_field s a _magazine _ m Ho) |].
    exact (Forall_lookup_1 _ _ _ _ Hval Ho).
Qed.

Lemma attributes_stay_valid_witness :
  reachable demo /\
  Magazine.name 2%nat demo = (Ok (VStr "Tech"), demo) /\
  str_between 2 16 (VStr "Tech").
Proof.
  assert (Hr : reachable demo) by (exists demo_calls; reflexivity).
  split; [exact Hr |].
  destruct (attributes_stay_valid demo Hr) as (_ & Hmag & _).
  destruct (Hmag 2%nat (VStr "Tech") (VStr "Science") eq_refl) as (Hn & _ & Hv & _).
  split; [exact Hn | exact Hv].
Defined.

(** X11. Every registered article is listed by exactly one author and by
    exactly one magazine, the ones its [author] and [magazine] accessors
    return. *)
Theorem registered_article_has_one_author_one_magazine (s : state) (a : addr) :
  reachable s ->
  a ∈ Article_all s ->
  exists au m,
    Article.author a s = (Ok (VRef au), s) /\
    Article.magazine a s = (Ok (VRef m), s) /\
    is_a CAuthor (heap s) (VRef au) = true /\
    is_a CMagazine (heap s) (VRef m) = true /\
    (forall x l, Author.articles x s = (Ok l, s) -> a ∈ l <-> x = au) /\
    (forall x l, Magazine.articles x s = (Ok l, s) -> a ∈ l <-> x = m).
Proof.
  intros Hwf%reachable_is_wf Ha.
  destruct (registered_author _ _ Hwf Ha) as (au & n & Hfa & Hau).
  destruct (registered_magazine _ _ Hwf Ha) as (m & n' & c & Hfm & Hm).
  exists au, m.
  split; [by rewrite (Article_author_wf _ _ Hwf Ha), Hfa |].
  split; [by rewrite (Article_magazine_wf _ _ Hwf Ha), Hfm |].
  split; [simpl; by rewrite Hau |]. split; [simpl; by rewrite Hm |]. split.
  - intros x l. rewrite (Author_articles_wf _ _ Hwf). intros [= <-].
    rewrite list_elem_of_filter, Hfa. split; [by intros [[= ->] _] | by intros ->].
  - intros x l. rewrite (Magazine_articles_wf _ _ Hwf). intros [= <-].
    rewrite list_elem_of_filter, Hfm. split; [by intros [[= ->] _] | by intros ->].
Qed.

Lemma registered_article_has_one_author_one_magazine_witness :
  reachable demo /\ 9%nat ∈ Article_all demo /\
  exists au m,
    Article.author 9%nat demo = (Ok (VRef au), demo) /\
    Article.magazine 9%nat demo = (Ok (VRef m), demo).
Proof.
  assert (Hr : reachable demo) by (exists demo_calls; reflexivity).
  assert (Hin : 9%nat ∈ Article_all demo)
    by (apply (bool_decide_unpack _); vm_compute; exact I).
  split; [exact Hr |]. split; [exact Hin |].
  destruct (registered_article_has_one_author_one_magazine demo 9%nat Hr Hin)
    as (au & m & Hau & Hm & _).
  exists au, m. auto.
Defined.

Lemma instances_are_never_removed_witness :
  Article_all init `prefix_of` Article_all demo /\
  Magazine__all init `prefix_of` Magazine__all demo.
Proof.
  destruct (instances_are_never_removed demo_calls init) as (Ha & Hm & _).
  split; [exact Ha | exact Hm].
Defined.

(** ** How the calls change the answers of the queries *)

Lemma registered_is_Some s a : wf s -> a ∈ Article_all s -> is_Some (heap s !! a).
Proof.
  intros Hwf Ha. destruct (wf_registered_article _ _ Hwf Ha) as (? & ? & ? & -> & _).
  by eexists.
Qed.

Lemma field_ext s s' a f :
  heap s' !! a = heap s !! a -> field s' a f = field s a f.
Proof. intros H. unfold field. by rewrite H. Qed.

Lemma field_app s s' l a f :
  heap s' = heap s ++ l -> is_Some (heap s !! a) ->
  field s' a f = field s a f.
Proof.
  intros Hh [o Ho]. apply field_ext.
  by rewrite Hh, (lookup_app_l_Some _ _ _ _ Ho).
Qed.

Lemma field_fresh s s' o f :
  heap s' = heap s ++ [o] ->
  field s' (length (heap s)) f = default VNone (get_field o f).
Proof.
  intros Hh. unfold field. by rewrite Hh, lookup_app_r, Nat.sub_diag by lia.
Qed.

Lemma field_update_ne s self o a f :
  a <> self -> field (update s self o) a f = field s a f.
Proof. intros Hne. unfold field. simpl. by rewrite list_lookup_insert_ne. Qed.

Lemma field_update_eq s self o o0 f :
  heap s !! self = Some o0 ->
  field (update s self o) self f = default VNone (get_field o f).
Proof.
  intros Hs. unfold field. simpl.
  by rewrite list_lookup_insert_eq by (by eapply lookup_lt_Some).
Qed.


Lemma articles_by_append_Article s au m t x :
  wf s ->
  articles_by (append_Article au m t s) x =
  articles_by s x ++ (if decide (au = VRef x) then [length (heap s)] else []).
Proof.
  intros Hwf. unfold articles_by. cbn [append_Article Article_all].
  rewrite filter_app. f_equal.
  - apply filter_ext_elem. intros a Ha.
    rewrite (field_app s _ [ArticleObj t au m]);
      [done | done | by apply registered_is_Some].
  - rewrite filter_cons, filter_nil, (field_fresh s _ (ArticleObj t au m)) by done.
    simpl. by destruct (decide (au = VRef x)).
Qed.

Lemma articles_in_append_Article s au m t x :
  wf s ->
  articles_in (append_Article au m t s) x =
  articles_in s x ++ (if decide (m = VRef x) then [length (heap s)] else []).
Proof.
  intros Hwf. unfold articles_in. cbn [append_Article Article_all].
  rewrite filter_app. f_equal.
  - apply filter_ext_elem. intros a Ha.
    rewrite (field_app s _ [ArticleObj t au m]);
      [done | done | by apply registered_is_Some].
  - rewrite filter_cons, filter_nil, (field_fresh s _ (ArticleObj t au m)) by done.
    simpl. by destruct (decide (m = VRef x)).
Qed.

(** X12. A successful [author.add_article(magazine, title)] creates one
    article, appended to [Article.all], whose accessors return the author,
    the magazine and the title given.  It becomes the last entry of
    [author.articles()] and of [magazine.articles()]; the lists of every
    other author and magazine are as before. *)
Theorem add_article_links_author_and_magazine
    (s : state) (self : addr) (magazine title : value) (art : addr) (s' : state) :
  reachable s ->
  Author.add_article self magazine title s = (Ok art, s') ->
  exists m by_self in_m,
    magazine = VRef m /\
    (art ∉ Article_all s) /\ Article_all s' = Article_all s ++ [art] /\
    Article.author art s' = (Ok (VRef self), s') /\
    Article.magazine art s' = (Ok (VRef m), s') /\
    Article.title art s' = (Ok title, s') /\
    Author.articles self s = (Ok by_self, s) /\
    Author.articles self s' = (Ok (by_self ++ [art]), s') /\
    Magazine.articles m s = (Ok in_m, s) /\
    Magazine.articles m s' = (Ok (in_m ++ [art]), s') /\
    (forall x, x <> self -> (Author.articles x s').1 = (Author.articles x s).1) /\
    (forall x, x <> m -> (Magazine.articles x s').1 = (Magazine.articles x s).1).
Proof.
  intros Hwf%reachable_is_wf. unfold Author.add_article.
  destruct (Article_init_cases (VRef self) magazine title s)
    as [(Hau & Hmag & Ht & ->) | [_ [e ->]]]; [| done].
  intros [= <- <-].
  pose proof (wf_append_Article _ _ _ _ Hau Hmag Ht Hwf) as Hwf'.
  apply is_a_true in Hmag as (m & -> & Hm).
  set (s' := append_Article (VRef self) (VRef m) title s) in *.
  assert (Hl : heap s' !! length (heap s)
               = Some (ArticleObj title (VRef self) (VRef m))).
  { simpl. by rewrite lookup_app_r, Nat.sub_diag by lia. }
  assert (Hby : forall x, Author.articles x s' =
            (Ok (articles_by s x ++
                 (if decide (VRef self = VRef x) then [length (heap s)] else [])), s')).
  { intros x. rewrite (Author_articles_wf _ _ Hwf'). fold (articles_by s' x).
    unfold s'. by rewrite articles_by_append_Article. }
  assert (Hin : forall x, Magazine.articles x s' =
            (Ok (articles_in s x ++
                 (if decide (VRef m = VRef x) then [length (heap s)] else [])), s')).
  { intros x. rewrite (Magazine_articles_wf _ _ Hwf'). fold (articles_in s' x).
    unfold s'. by rewrite articles_in_append_Article. }
  exists m, (articles_by s self), (articles_in s m).
  split; [done |]. split.
  { intros [o Ho]%(registered_is_Some _ _ Hwf).
    apply lookup_lt_Some in Ho. lia. }
  split; [done |].
  split; [by apply (getattr_field s' _ _author _ _ Hl) |].
  split; [by apply (getattr_field s' _ _magazine _ _ Hl) |].
  split; [by apply (getattr_field s' _ _title _ _ Hl) |].
  split; [by apply Author_articles_wf |].
  split; [by rewrite Hby, decide_True |].
  split; [by apply Magazine_articles_wf |].
  split; [by rewrite Hin, decide_True |].
  split.
  - intros x Hx. rewrite Hby, decide_False, app_nil_r, (Author_articles_wf _ _ Hwf);
      [done | congruence].
  - intros x Hx. rewrite Hin, decide_False, app_nil_r, (Magazine_articles_wf _ _ Hwf);
      [done | congruence].
Qed.

Lemma add_article_links_author_and_magazine_witness :
  reachable demo /\
  exists by_self,
    Author.articles 0%nat demo = (Ok by_self, demo) /\
    Author.articles 0%nat (append_Article (VRef 0%nat) (VRef 3%nat) (VStr "Fresh") demo)
    = (Ok (by_self ++ [10%nat]),
       append_Article (VRef 0%nat) (VRef 3%nat) (VStr "Fresh") demo).
Proof.
  assert (Hr : reachable demo) by (exists demo_calls; reflexivity).
  split; [exact Hr |].
  destruct (add_article_links_author_and_magazine
              demo 0%nat (VRef 3%nat) (VStr "Fresh") 10%nat
              (append_Article (VRef 0%nat) (VRef 3%nat) (VStr "Fresh") demo)
              Hr eq_refl)
    as (m & by_self & in_m & _ & _ & _ & _ & _ & _ & Hold & Hnew & _).
  exists by_self. split; [exact Hold | exact Hnew].
Defined.

Lemma registered_of_heap s a t au m :
  wf s -> heap s !! a = Some (ArticleObj t au m) -> a ∈ Article_all s.
Proof.
  intros Hwf Ho. rewrite (wf_articles _ Hwf). apply elem_of_instances.
  by rewrite Ho.
Qed.

(** X13. Assigning an Author instance to [article.author] moves the
    article: afterwards exactly the assigned author lists it in
    [articles()], every other article is listed as before, and the
    registry, the title, the magazine and every [magazine.articles()] are
    unchanged. *)
Theorem author_reassignment_moves_the_article
    (s : state) (art : addr) (t a m v : value) (s' : state) :
  reachable s ->
  heap s !! art = Some (ArticleObj t a m) ->
  is_a CAuthor (heap s) v = true ->
  Article.author_setter art v s = (Ok tt, s') ->
  Article.author art s' = (Ok v, s') /\
  Article.magazine art s' = (Ok m, s') /\
  Article.title art s' = (Ok t, s') /\
  Article_all s' = Article_all s /\
  (forall x, exists l l',
     Author.articles x s = (Ok l, s) /\ Author.articles x s' = (Ok l', s') /\
     (art ∈ l' <-> v = VRef x) /\
     (forall y, y <> art -> y ∈ l' <-> y ∈ l)) /\
  (forall x, (Magazine.articles x s').1 = (Magazine.articles x s).1).
Proof.
  intros Hwf%reachable_is_wf Ho Hv.
  rewrite (Article_author_setter_spec _ _ _ _ _ _ Ho), Hv. intros [= <-].
  pose proof (wf_lookup _ _ _ Hwf Ho) as (Ht & _ & Hm).
  assert (Hwf' : wf (update s art (ArticleObj t v m))).
  { eapply wf_update; eauto. by simpl. }
  pose proof (registered_of_heap _ _ _ _ _ Hwf Ho) as Hreg.
  set (s' := update s art (ArticleObj t v m)) in *.
  assert (Hl : heap s' !! art = Some (ArticleObj t v m)).
  { simpl. apply list_lookup_insert_eq. by eapply lookup_lt_Some. }
  split; [by apply (getattr_field s' _ _author _ _ Hl) |].
  split; [by apply (getattr_field s' _ _magazine _ _ Hl) |].
  split; [by apply (getattr_field s' _ _title _ _ Hl) |].
  split; [done |]. split.
  - intros x. eexists _, _.
    split; [by apply Author_articles_wf |].
    split; [by apply Author_articles_wf |].
    change (Article_all s') with (Article_all s). split.
    + rewrite list_elem_of_filter, (field_lookup _ _ _ _ Hl). simpl. tauto.
    + intros y Hy. rewrite !list_elem_of_filter.
      unfold s'. by rewrite field_update_ne.
  - intros x. rewrite (Magazine_articles_wf _ _ Hwf), (Magazine_articles_wf _ _ Hwf').
    simpl. f_equal. apply filter_ext_elem. intros y Hy.
    destruct (decide (y = art)) as [-> | Hne].
    + by rewrite (field_lookup _ _ _ _ Hl), (field_lookup _ _ _ _ Ho).
    + unfold s'. by rewrite field_update_ne.
Qed.

Lemma author_reassignment_moves_the_article_witness :
  reachable demo /\
  Article.author 9%nat (update demo 9%nat
                          (ArticleObj (VStr "In Vogue now") (VRef 0%nat) (VRef 3%nat)))
  = (Ok (VRef 0%nat),
     update demo 9%nat (ArticleObj (VStr "In Vogue now") (VRef 0%nat) (VRef 3%nat))).
Proof.
  assert (Hr : reachable demo) by (exists demo_calls; reflexivity).
  split; [exact Hr |].
  apply (author_reassignment_moves_the_article
           demo 9%nat (VStr "In Vogue now") (VRef 1%nat) (VRef 3%nat) (VRef 0%nat)
           _ Hr eq_refl eq_refl eq_refl).
Defined.

(** X14. Assigning a Magazine instance to [article.magazine] moves the
    article between magazines: afterwards exactly the assigned magazine
    lists it in [articles()], every other article is listed as before, and
    the registry, the title, the author and every [author.articles()] are
    unchanged. *)
Theorem magazine_reassignment_moves_the_article
    (s : state) (art : addr) (t a m v : value) (s' : state) :
  reachable s ->
  heap s !! art = Some (ArticleObj t a m) ->
  is_a CMagazine (heap s) v = true ->
  Article.magazine_setter art v s = (Ok tt, s') ->
  Article.magazine art s' = (Ok v, s') /\
  Article.author art s' = (Ok a, s') /\
  Article.title art s' = (Ok t, s') /\
  Article_all s' = Article_all s /\
  (forall x, exists l l',
     Magazine.articles x s = (Ok l, s) /\ Magazine.articles x s' = (Ok l', s') /\
     (art ∈ l' <-> v = VRef x) /\
     (forall y, y <> art -> y ∈ l' <-> y ∈ l)) /\
  (forall x, (Author.articles x s').1 = (Author.articles x s).1).
Proof.
  intros Hwf%reachable_is_wf Ho Hv.
  rewrite (Article_magazine_setter_spec _ _ _ _ _ _ Ho), Hv. intros [= <-].
  pose proof (wf_lookup _ _ _ Hwf Ho) as (Ht & Ha & _).
  assert (Hwf' : wf (update s art (ArticleObj t a v))).
  { eapply wf_update; eauto. by simpl. }
  pose proof (registered_of_heap _ _ _ _ _ Hwf Ho) as Hreg.
  set (s' := update s art (ArticleObj t a v)) in *.
  assert (Hl : heap s' !! art = Some (ArticleObj t a v)).
  { simpl. apply list_lookup_insert_eq. by eapply lookup_lt_Some. }
  split; [by apply (getattr_field s' _ _magazine _ _ Hl) |].
  split; [by apply (getattr_field s' _ _author _ _ Hl) |].
  split; [by apply (getattr_field s' _ _title _ _ Hl) |].
  split; [done |]. split.
  - intros x. eexists _, _.
    split; [by apply Magazine_articles_wf |].
    split; [by apply Magazine_articles_wf |].
    change (Article_all s') with (Article_all s). split.
    + rewrite list_elem_of_filter, (field_lookup _ _ _ _ Hl). simpl. tauto.
    + intros y Hy. rewrite !list_elem_of_filter.
      unfold s'. by rewrite field_update_ne.
  - intros x. rewrite (Author_articles_wf _ _ Hwf), (Author_articles_wf _ _ Hwf').
    simpl. f_equal. apply filter_ext_elem. intros y Hy.
    destruct (decide (y = art)) as [-> | Hne].
    + by rewrite (field_lookup _ _ _ _ Hl), (field_lookup _ _ _ _ Ho).
    + unfold s'. by rewrite field_update_ne.
Qed.

Lemma magazine_reassignment_moves_the_article_witness :
  reachable demo /\
  Article.magazine 9%nat (update demo 9%nat
                            (ArticleObj (VStr "In Vogue now") (VRef 1%nat) (VRef 2%nat)))
  = (Ok (VRef 2%nat),
     update demo 9%nat (ArticleObj (VStr "In Vogue now") (VRef 1%nat) (VRef 2%nat))).
Proof.
  assert (Hr : reachable demo) by (exists demo_calls; reflexivity).
  split; [exact Hr |].
  apply (magazine_reassignment_moves_the_article
           demo 9%nat (VStr "In Vogue now") (VRef 1%nat) (VRef 3%nat) (VRef 2%nat)
           _ Hr eq_refl eq_refl eq_refl).
Defined.

(** ** Stores with the same relations *)


Lemma same_links_field s s' a f :
  same_links s s' -> a ∈ Article_all s -> field s' a f = field s a f.
Proof. intros [_ Hl] Ha. apply field_ext. by apply Hl. Qed.

Lemma same_links_articles_by s s' x :
  same_links s s' -> articles_by s' x = articles_by s x.
Proof.
  intros Hl. unfold articles_by. rewrite (proj1 Hl).
  apply filter_ext_elem. intros a Ha. by rewrite (same_links_field _ _ _ _ Hl Ha).
Qed.

Lemma same_links_articles_in s s' x :
  same_links s s' -> articles_in s' x = articles_in s x.
Proof.
  intros Hl. unfold articles_in. rewrite (proj1 Hl).
  apply filter_ext_elem. intros a Ha. by rewrite (same_links_field _ _ _ _ Hl Ha).
Qed.

Lemma same_links_article_count s s' x :
  same_links s s' -> article_count s' x = article_count s x.
Proof.
  intros Hl. unfold article_count.
  fold (articles_in s' x). fold (articles_in s x).
  by rewrite (same_links_articles_in _ _ _ Hl).
Qed.

Lemma same_links_appearances s s' x v :
  same_links s s' -> appearances s' x v = appearances s x v.
Proof.
  intros Hl. rewrite !appearances_filter, (same_links_articles_in _ _ _ Hl).
  do 2 f_equal. apply filter_ext_elem.
  intros a Ha%articles_in_registered. by rewrite (same_links_field _ _ _ _ Hl Ha).
Qed.

Lemma same_links_fmap_by s s' x f :
  same_links s s' ->
  (fun a => field s' a f) <$> articles_by s x = (fun a => field s a f) <$> articles_by s x.
Proof.
  intros Hl. apply Forall_fmap_ext, Forall_forall.
  intros a Ha%articles_by_registered. by apply same_links_field.
Qed.

Lemma same_links_fmap_in s s' x f :
  same_links s s' ->
  (fun a => field s' a f) <$> articles_in s x = (fun a => field s a f) <$> articles_in s x.
Proof.
  intros Hl. apply Forall_fmap_ext, Forall_forall.
  intros a Ha%articles_in_registered. by apply same_links_field.
Qed.

Lemma foldl_leader_step_ext cnt cnt' acc l :
  (forall m, cnt' m = cnt m) ->
  foldl (leader_step cnt') acc l = foldl (leader_step cnt) acc l.
Proof.
  intros Hc. revert acc. induction l as [|x l IH]; intros acc; simpl; [done |].
  rewrite IH. f_equal. destruct acc as [b bc]. unfold leader_step. by rewrite Hc.
Qed.

(** With the same relations, the queries over articles answer the same. *)
Lemma same_links_queries s s' x :
  wf s -> wf s' -> same_links s s' ->
  (Author.articles x s').1 = (Author.articles x s).1 /\
  (Author.magazines x s').1 = (Author.magazines x s).1 /\
  (Magazine.articles x s').1 = (Magazine.articles x s).1 /\
  (Magazine.contributors x s').1 = (Magazine.contributors x s).1 /\
  (Magazine.article_titles x s').1 = (Magazine.article_titles x s).1 /\
  (Magazine.contributing_authors x s').1 = (Magazine.contributing_authors x s).1.
Proof.
  intros Hwf Hwf' Hl.
  pose proof (same_links_articles_by _ _ x Hl) as Hby.
  pose proof (same_links_articles_in _ _ x Hl) as Hin.
  split.
  { rewrite !Author_articles_wf by done. cbn [fst].
    fold (articles_by s' x). fold (articles_by s x). by rewrite Hby. }
  split.
  { rewrite !Author_magazines_wf by done. cbn [fst].
    by rewrite Hby, (same_links_fmap_by _ _ x _magazine Hl). }
  split.
  { rewrite !Magazine_articles_wf by done. cbn [fst].
    fold (articles_in s' x). fold (articles_in s x). by rewrite Hin. }
  split.
  { rewrite !Magazine_contributors_wf by done. cbn [fst].
    by rewrite Hin, (same_links_fmap_in _ _ x _author Hl). }
  split.
  { rewrite !Magazine_article_titles_wf by done. cbn [fst]. rewrite Hin.
    generalize (same_links_fmap_in _ _ x _title Hl).
    destruct (articles_in s x); [done |]. by intros ->. }
  rewrite !contributing_authors_as_filter by done. cbn [fst].
  rewrite Hin, (same_links_fmap_in _ _ x _author Hl).
  assert (Hf : filter (fun v => 2 < appearances s' x v)
                 (first_seen ((fun a => field s a _author) <$> articles_in s x)) =
               filter (fun v => 2 < appearances s x v)
                 (first_seen ((fun a => field s a _author) <$> articles_in s x))).
  { apply list_filter_iff. intros v. by rewrite (same_links_appearances _ _ _ _ Hl). }
  by rewrite Hf.
Qed.

Lemma same_links_top_publisher s s' :
  wf s -> wf s' -> same_links s s' -> Magazine__all s' = Magazine__all s ->
  (Magazine.top_publisher s').1 = (Magazine.top_publisher s).1.
Proof.
  intros Hwf Hwf' Hl Hm. rewrite !top_publisher_wf by done. cbn [fst].
  rewrite (proj1 Hl), Hm.
  by rewrite (foldl_leader_step_ext (article_count s) (article_count s'))
    by (intros m; by apply same_links_article_count).
Qed.

Lemma same_links_update s self o o' :
  wf s -> heap s !! self = Some o -> class_of o <> CArticle ->
  same_links s (update s self o').
Proof.
  intros Hwf Ho Hc. split; [done |]. intros a Ha. simpl.
  apply list_lookup_insert_ne. intros ->.
  destruct (wf_registered_article _ _ Hwf Ha) as (? & ? & ? & Ha' & _).
  rewrite Ho in Ha'. by injection Ha' as ->.
Qed.


(** X15. Renaming a magazine or changing its category, accepted or not,
    changes no relation: both registries, and the answers of the queries
    over articles for every author and magazine, are as before. *)
Theorem Magazine_setters_keep_relations
    (s : state) (self : addr) (v : value) (s' : state) :
  reachable s ->
  is_a CMagazine (heap s) (VRef self) = true ->
  Magazine.name_setter self v s = (Ok tt, s') \/
  Magazine.category_setter self v s = (Ok tt, s') ->
  Article_all s' = Article_all s /\ Magazine__all s' = Magazine__all s /\
  (Magazine.top_publisher s').1 = (Magazine.top_publisher s).1 /\
  forall x,
    (Author.articles x s').1 = (Author.articles x s).1 /\
    (Author.magazines x s').1 = (Author.magazines x s).1 /\
    (Magazine.articles x s').1 = (Magazine.articles x s).1 /\
    (Magazine.contributors x s').1 = (Magazine.contributors x s).1 /\
    (Magazine.article_titles x s').1 = (Magazine.article_titles x s).1 /\
    (Magazine.contributing_authors x s').1 = (Magazine.contributing_authors x s).1.
Proof.
  intros Hwf%reachable_is_wf Hc Hset.
  apply is_a_lookup in Hc as ([| n c |] & Hs & Hc); try done.
  assert (Hs' : s' = s \/ exists n' c', s' = update s self (MagazineObj n' c')).
  { destruct Hset as [Hset | Hset].
    - rewrite (Magazine_name_setter_spec _ _ _ _ _ Hs) in Hset.
      injection Hset as <-. case_decide; eauto.
    - rewrite (Magazine_category_setter_spec _ _ _ _ _ Hs) in Hset.
      injection Hset as <-. case_decide; eauto. }
  destruct Hs' as [-> | (n' & c' & ->)]; [done |].
  assert (Hwf' : wf (update s self (MagazineObj n' c'))) by (by eapply wf_update).
  assert (Hl : same_links s (update s self (MagazineObj n' c')))
    by (by eapply same_links_update).
  split; [done |]. split; [done |].
  split; [by apply same_links_top_publisher |].
  intros x. by apply same_links_queries.
Qed.

Lemma Magazine_setters_keep_relations_witness :
  reachable demo /\
  (Magazine.top_publisher (update demo 3%nat (MagazineObj (VStr "Elle") (VStr "Fashion")))).1
  = (Magazine.top_publisher demo).1.
Proof.
  assert (Hr : reachable demo) by (exists demo_calls; reflexivity).
  split; [exact Hr |].
  apply (Magazine_setters_keep_relations demo 3%nat (VStr "Elle") _ Hr eq_refl).
  left. reflexivity.
Defined.







(** X18. [Magazine.top_publisher()] is [None] only when [Article.all] is
    empty, and the magazine it returns is a Magazine instance with at least
    one article: its [articles()] is not empty and neither [article_titles()]
    nor the count is void. *)
Theorem top_publisher_has_articles (s : state) :
  reachable s ->
  exists r,
    Magazine.top_publisher s = (Ok r, s) /\
    (r = None <-> Article_all s = []) /\
    (forall m, r = Some m ->
       is_a CMagazine (heap s) (VRef m) = true /\
       0 < article_count s m /\
       (exists a l, Magazine.articles m s = (Ok (a :: l), s)) /\
       (exists ts, Magazine.article_titles m s = (Ok (Some ts), s))).
Proof.
  intros Hwf%reachable_is_wf. eexists. split; [by apply top_publisher_wf |].
  pose proof (leads_all (article_count s) (article_count_nonneg s) (Magazine__all s))
    as Hlead.
  destruct (Article_all s) as [|a0 all] eqn:Eall; [by split |].
  assert (Hsome : forall b bc,
            foldl (leader_step (article_count s)) (None, 0) (Magazine__all s) = (Some b, bc) ->
            is_a CMagazine (heap s) (VRef b) = true /\
            0 < article_count s b /\
            (exists a l, Magazine.articles b s = (Ok (a :: l), s)) /\
            (exists ts, Magazine.article_titles b s = (Ok (Some ts), s))).
  { intros b bc E. rewrite E in Hlead. unfold leads in Hlead. simpl in Hlead.
    destruct Hlead as (Hpos & -> & i & Hi & _).
    apply list_elem_of_lookup_2 in Hi. rewrite (wf_magazines _ Hwf) in Hi.
    apply elem_of_instances in Hi.
    split.
    { simpl. destruct (heap s !! b) as [o|]; simpl in Hi; [| done].
      apply bool_decide_eq_true. congruence. }
    split; [done |].
    rewrite (Magazine_articles_wf _ _ Hwf), (Magazine_article_titles_wf _ _ Hwf).
    unfold article_count in Hpos. fold (articles_in s b) in *.
    destruct (articles_in s b) as [|a l]; [simpl in Hpos; lia | eauto]. }
  destruct (foldl _ _ _) as [[b|] bc] eqn:E; simpl.
  - split; [done |]. intros m [= <-]. by eapply Hsome.
  - exfalso. unfold leads in Hlead. simpl in Hlead. destruct Hlead as [_ Hzero].
    assert (Ha0 : a0 ∈ Article_all s) by (rewrite Eall; left).
    destruct (registered_magazine _ _ Hwf Ha0) as (m & n & c & Hf & Hm).
    assert (Hreg : m ∈ Magazine__all s).
    { rewrite (wf_magazines _ Hwf). apply elem_of_instances. by rewrite Hm. }
    specialize (Hzero m Hreg). unfold article_count in Hzero.
    assert (Hin : a0 ∈ filter (fun a => field s a _magazine = VRef m) (Article_all s))
      by (by apply list_elem_of_filter).
    destruct (filter _ (Article_all s)); [by apply elem_of_nil in Hin | simpl in *; lia].
Qed.

Lemma top_publisher_has_articles_witness :
  reachable demo /\
  exists r, Magazine.top_publisher demo = (Ok r, demo) /\
            (r = None <-> Article_all demo = []).
Proof.
  assert (Hr : reachable demo) by (exists demo_calls; reflexivity).
  split; [exact Hr |].
  destruct (top_publisher_has_articles demo Hr) as (r & Hrun & Hnone & _).
  exists r. auto.
Defined.
